(** * ExperimentalFunctions.cpp: a shallow embedding and its properties

    The functions of namespace [experimental] are embedded as functions
    on a model of [cv::Mat].  C++ [int] values are integers of [Z]: the
    coordinates, their differences and the filter sums that occur stay
    far inside the range of [int] for the sizes a [cv::Mat] can have, so
    no operation wraps.  What the C++ leaves undefined (a read outside
    the matrix, the conversion of a NaN to [int]) and a failed library
    assertion are [None].  The OpenCV functions are embedded by their
    documented behaviour. *)

From Stdlib Require Import ZArith QArith Lia.
From Stdlib Require Import Strings.Byte.
From stdpp Require Import base option list list_numbers.

Local Open Scope Z_scope.

(** ** Bytes: the [uchar] pixel type *)

Definition uchar := Byte.byte.

(** The integer a [uchar] stands for. *)
Definition zv (b : uchar) : Z := Z.of_N (Byte.to_N b).

(** [cv::saturate_cast<uchar>] on an integer. *)
Definition u8 (z : Z) : uchar :=
  if z <? 0 then x00
  else if 255 <? z then xff
  else match Byte.of_N (Z.to_N z) with
       | Some b => b
       | None => xff
       end.

(** [v != 0] on a [uchar]. *)
Definition nonzero (b : uchar) : bool := negb (Byte.eqb b x00).

(** ** Matrices *)

(** A [cv::Mat] of one channel: [rows], [cols] and the continuous
    row-major buffer. *)
Record Mat (A : Type) : Type := mkMatRaw {
  rows : Z;
  cols : Z;
  data : list A
}.
Arguments mkMatRaw {A} _ _ _.
Arguments rows {A} _.
Arguments cols {A} _.
Arguments data {A} _.

(** The buffer holds exactly [rows * cols] elements. *)
Definition wf {A} (m : Mat A) : Prop :=
  0 <= rows m /\ 0 <= cols m /\ Z.of_nat (length (data m)) = rows m * cols m.

Definition in_range {A} (m : Mat A) (x y : Z) : bool :=
  (0 <=? x) && (x <? cols m) && (0 <=? y) && (y <? rows m).

(** [image.at<T>(Point(x, y))]: element [x] of row [y]. *)
Definition at_ {A} (m : Mat A) (x y : Z) : option A :=
  if in_range m x y then data m !! Z.to_nat (y * cols m + x) else None.

(** A matrix given by its entries, [f x y] at column [x] of row [y]; it
    has no element unless both dimensions are positive. *)
Definition mkMat {A} (r c : Z) (f : Z -> Z -> A) : Mat A :=
  mkMatRaw r c ((fun i => f (i mod c) (i / c)) <$> seqZ 0 (Z.max 0 r * Z.max 0 c)).

(** [Mat::zeros(r, c, CV_8UC1)] and [Mat::ones(Size(c, r), CV_8UC1)]. *)
Definition zeros (r c : Z) : Mat uchar := mkMat r c (fun _ _ => x00).
Definition ones (r c : Z) : Mat uchar := mkMat r c (fun _ _ => x01).

(** [cv::Rect]: x, y, width, height. *)
Record Rect : Type := mkRect {
  rect_x : Z;
  rect_y : Z;
  rect_width : Z;
  rect_height : Z
}.

(** ** Loops in the error monad *)

(** [for (x : xs) s = body(s, x)], stopping at the first fault. *)
Fixpoint foldlM {S X} (body : S -> X -> option S) (s : S) (xs : list X) : option S :=
  match xs with
  | [] => Some s
  | x :: xs' =>
      match body s x with
      | Some s' => foldlM body s' xs'
      | None => None
      end
  end.

(** ** computeGelLocation *)

(** The four running extremes [leftMost, rightMost, topMost, bottomMost]. *)
Record Extremes : Type := mkExtremes {
  leftMost : Z;
  rightMost : Z;
  topMost : Z;
  bottomMost : Z
}.

(** The body of the inner loop at [currentPoint = (i, j)]. *)
Definition gel_step (image : Mat uchar) (i : Z) (e : Extremes) (j : Z) : option Extremes :=
  match at_ image i j with
  | None => None
  | Some currentValue =>
      if nonzero currentValue then
        Some (mkExtremes
                (if i <? leftMost e then i else leftMost e)
                (if rightMost e <? i then i else rightMost e)
                (if j <? topMost e then j else topMost e)
                (if bottomMost e <? j then j else bottomMost e))
      else Some e
  end.

Definition gel_scan (image : Mat uchar) : option Extremes :=
  foldlM (fun e i => foldlM (gel_step image i) e (seqZ 0 (rows image)))
         (mkExtremes (cols image - 1) 0 (rows image - 1) 0)
         (seqZ 0 (cols image)).

Definition computeGelLocation (image : Mat uchar) : option Rect :=
  match gel_scan image with
  | None => None
  | Some e =>
      Some (mkRect (leftMost e) (topMost e)
                   (rightMost e - leftMost e) (bottomMost e - topMost e))
  end.

(** A non-zero pixel of the image. *)
Definition lit (image : Mat uchar) (x y : Z) : Prop :=
  exists v, at_ image x y = Some v /\ nonzero v = true.

(** [tracks image seen e0 e]: starting from [e0], the extremes [e]
    account for exactly the non-zero pixels among the positions [seen]. *)
Definition tracks (image : Mat uchar) (seen : Z -> Z -> Prop) (e0 e : Extremes) : Prop :=
  (forall x y, seen x y -> lit image x y ->
     leftMost e <= x <= rightMost e /\ topMost e <= y <= bottomMost e)
  /\ (leftMost e <= leftMost e0 /\ rightMost e0 <= rightMost e
      /\ topMost e <= topMost e0 /\ bottomMost e0 <= bottomMost e)
  /\ (leftMost e = leftMost e0 \/ exists y, seen (leftMost e) y /\ lit image (leftMost e) y)
  /\ (rightMost e = rightMost e0 \/ exists y, seen (rightMost e) y /\ lit image (rightMost e) y)
  /\ (topMost e = topMost e0 \/ exists x, seen x (topMost e) /\ lit image x (topMost e))
  /\ (bottomMost e = bottomMost e0 \/ exists x, seen x (bottomMost e) /\ lit image x (bottomMost e)).

(** The inclusive span of the non-zero pixels: [minX], [maxX], [minY]
    and [maxY] are the least and greatest coordinates they take. *)
Definition lit_span (image : Mat uchar) (minX maxX minY maxY : Z) : Prop :=
  (forall x y, lit image x y -> minX <= x <= maxX /\ minY <= y <= maxY)
  /\ (exists y, lit image minX y) /\ (exists y, lit image maxX y)
  /\ (exists x, lit image x minY) /\ (exists x, lit image x maxY).

(** The example of the specification: an 8x8 image, zero but for a 2x2
    block of 255 at rows 3-4 and columns 3-4. *)
Definition block_8x8 : Mat uchar :=
  mkMat 8 8 (fun x y => if (3 <=? x) && (x <=? 4) && (3 <=? y) && (y <=? 4) then xff else x00).

(** ** computeInnermostRectangle *)

(** One scanning loop: visit [idxs] in order and [break] at the first
    index whose pixel is not zero.  [Some None] is a loop that ran to its
    end without breaking. *)
Fixpoint first_nonzero (read : Z -> option uchar) (idxs : list Z) : option (option Z) :=
  match idxs with
  | [] => Some None
  | i :: rest =>
      match read i with
      | None => None
      | Some v => if nonzero v then Some (Some i) else first_nonzero read rest
      end
  end.

(** [for (int i = from; i >= 0; --i)] and [for (int i = from; i < to; ++i)]. *)
Definition down_to_zero (from : Z) : list Z := reverse (seqZ 0 (from + 1)).
Definition up_to (from to : Z) : list Z := seqZ from (to - from).

Definition computeInnermostRectangle (image : Mat uchar) : option Rect :=
  let cx := cols image ÷ 2 in
  let cy := rows image ÷ 2 in
  fu ← first_nonzero (fun i => at_ image cx i) (down_to_zero cy);
  fd ← first_nonzero (fun i => at_ image cx i) (up_to cy (rows image));
  fl ← first_nonzero (fun i => at_ image i cy) (down_to_zero cx);
  fr ← first_nonzero (fun i => at_ image i cy) (up_to cx (cols image));
  let u := default 0 fu in
  let d := default (rows image) fd in
  let l := default 0 fl in
  let r := default (cols image) fr in
  Some (mkRect l u (r - l) (d - u)).

(** The bound a ray scanned towards zero ends with: the first position
    from [start] downwards that satisfies [P], or 0 when there is none. *)
Definition ray_decreasing (P : Z -> Prop) (start b : Z) : Prop :=
  (0 <= b <= start /\ P b /\ forall j, b < j <= start -> ~ P j)
  \/ (b = 0 /\ forall j, 0 <= j <= start -> ~ P j).

(** The bound a ray scanned upwards ends with: the first position from
    [start] upwards and below [limit] that satisfies [P], or [limit]
    when there is none. *)
Definition ray_increasing (P : Z -> Prop) (start limit b : Z) : Prop :=
  (start <= b < limit /\ P b /\ forall j, start <= j < b -> ~ P j)
  \/ (b = limit /\ forall j, start <= j < limit -> ~ P j).

(** ** plotHistogram *)

Definition NUMBER_OF_BINS : Z := 256.
Definition WINDOW_HEIGHT : Z := NUMBER_OF_BINS.
Definition WINDOW_WIDTH : Z := NUMBER_OF_BINS.

(** [d++] on a [double] that holds a whole number between 0 and 2^53:
    below 2^53 the successor is representable and the sum is exact; at
    2^53 the exact sum 2^53 + 1 lies half way between two doubles and
    rounds to the even one, 2^53 itself. *)
Definition double_incr (d : Z) : Z := if d <? 2 ^ 53 then d + 1 else d.

(** The tally loop: [hist[*it]++] for every element, in iterator order. *)
Definition tally (image : Mat uchar) : list Z :=
  foldl (fun hist v => alter double_incr (Byte.to_nat v) hist)
        (replicate (Z.to_nat NUMBER_OF_BINS) 0) (data image).

(** The loop that looks for the largest bin. *)
Definition hist_max (hist : list Z) : Z :=
  foldl (fun max binValue => if max <? binValue then binValue else max) 0 hist.

(** [static_cast<int>(binValue * WINDOW_HEIGHT / max)].  With [max] zero
    the quotient is a NaN or an infinity, whose conversion to [int] is
    undefined.  Otherwise [0 <= binValue <= max], the product is exact
    and, for counts below 2^44, the rounded quotient truncates to the
    same whole number as the exact one. *)
Definition binHeight (binValue max : Z) : option Z :=
  if max =? 0 then None else Some ((binValue * WINDOW_HEIGHT) ÷ max).

(** The pixel at [(x, y)], zero outside the matrix. *)
Definition pixel (image : Mat uchar) (x y : Z) : uchar := default x00 (at_ image x y).

(** [line(image, Point(x, y0), Point(x, y1), Scalar(255, 255, 255))] for a
    vertical segment with [y0 <= y1]: the part of the segment inside the
    image becomes white. *)
Definition line_vertical (image : Mat uchar) (x y0 y1 : Z) : Mat uchar :=
  mkMat (rows image) (cols image)
        (fun X Y => if (X =? x) && (y0 <=? Y) && (Y <=? y1) then xff else pixel image X Y).

Definition plotHistogram (image : Mat uchar) : option (Mat uchar) :=
  let histogramImage := zeros WINDOW_HEIGHT WINDOW_WIDTH in
  let hist := tally image in
  let max := hist_max hist in
  foldlM (fun img bin =>
            h ← binHeight (default 0 (hist !! Z.to_nat bin)) max;
            Some (line_vertical img bin (WINDOW_HEIGHT - h) WINDOW_HEIGHT))
         histogramImage (seqZ 0 NUMBER_OF_BINS).

(** The sum of the bins. *)
Definition sumZ (l : list Z) : Z := foldr Z.add 0 l.

(** [Mat()]: the matrix without elements, as [imread] returns it for a
    file it cannot read. *)
Definition empty_image : Mat uchar := mkMatRaw 0 0 [].

(** ** computeForegroundImages *)

(** [foregroundImage = Scalar::all(0)]: every element becomes zero. *)
Definition set_all_zero (m : Mat uchar) : Mat uchar := zeros (rows m) (cols m).

(** [image.copyTo(dst, mask)]: [dst] is reallocated (and cleared) when its
    size differs from the size of [image]; then the elements of [image]
    under a non-zero mask element are copied. *)
Definition copyTo (image mask dst : Mat uchar) : Mat uchar :=
  let same := (rows dst =? rows image) && (cols dst =? cols image) in
  mkMat (rows image) (cols image)
        (fun x y => if nonzero (pixel mask x y) then pixel image x y
                    else if same then pixel dst x y else x00).

(** [Mat::empty()]. *)
Definition empty_mat {A} (m : Mat A) : bool := (rows m =? 0) || (cols m =? 0).

Section ForegroundSeparator.
(** [cv::BackgroundSubtractorMOG2] is a library object: a state, its
    constructor, and [apply], which consumes a frame, updates the state
    and yields the foreground mask. *)
Variable MOG2 : Type.
Variable createBackgroundSubtractorMOG2 : MOG2.
Variable mog2_apply : MOG2 -> Mat uchar -> MOG2 * Mat uchar.

(** The variables that live across the iterations of the loop.
    [written] records the calls of [imwrite] by the index that
    [buildFilename] receives. *)
Record FgState : Type := mkFgState {
  pMOG2 : MOG2;
  foregroundImage : Mat uchar;
  counter : Z;
  foregroundImages : list (Mat uchar);
  written : list (Z * Mat uchar)
}.

(** The first half of the loop body: [foregroundImage] is created at
    the size of the frame if it is still empty (its content is cleared
    before it is read), the frame goes to the estimator, and
    [foregroundImage] is rebuilt from the frame and the mask. *)
Definition fg_frame (model : MOG2) (fg image : Mat uchar) : MOG2 * Mat uchar :=
  let fg1 := if empty_mat fg then zeros (rows image) (cols image) else fg in
  let '(model', foregroundMask) := mog2_apply model image in
  let fg2 := set_all_zero fg1 in
  (model', copyTo image foregroundMask fg2).

(** The whole loop body. *)
Definition fg_body (s : FgState) (image : Mat uchar) : FgState :=
  let '(model', fg) := fg_frame (pMOG2 s) (foregroundImage s) image in
  let i := counter s + 1 in
  if 1 <? i then
    mkFgState model' fg i (foregroundImages s ++ [fg]) (written s ++ [(i, fg)])
  else
    mkFgState model' fg i (foregroundImages s) (written s).

Definition fg_init : FgState :=
  mkFgState createBackgroundSubtractorMOG2 empty_image 0 [] [].

Definition computeForegroundImages (images : list (Mat uchar)) : list (Mat uchar) :=
  foregroundImages (foldl fg_body fg_init images).

(** The value of [foregroundImage] at the end of each iteration, frame
    by frame: what each frame contributes, whether it is kept or not. *)
Fixpoint frame_outputs (model : MOG2) (fg : Mat uchar) (images : list (Mat uchar))
  : list (Mat uchar) :=
  match images with
  | [] => []
  | image :: rest =>
      let '(model', fg') := fg_frame model fg image in
      fg' :: frame_outputs model' fg' rest
  end.
End ForegroundSeparator.

(** A stand-in estimator for examples: its state counts the frames it
    has seen and its mask marks every pixel as foreground. *)
Definition counting_apply (seen : Z) (image : Mat uchar) : Z * Mat uchar :=
  (seen + 1, mkMat (rows image) (cols image) (fun _ _ => xff)).

Definition three_frames : list (Mat uchar) :=
  [mkMatRaw 1 2 [x01; x02]; mkMatRaw 1 2 [x03; x04]; mkMatRaw 1 2 [x05; x06]].

(** ** computeGradientImage *)

(** [cv::borderInterpolate(p, len, BORDER_REFLECT_101)] for the
    positions a 3x3 kernel reaches, [-1 <= p <= len]. *)
Definition borderInterpolate (p len : Z) : Z :=
  if len =? 1 then 0
  else if p <? 0 then - p
  else if len <=? p then 2 * len - 2 - p
  else p.

(** The source sample at [(x, y)] with [BORDER_DEFAULT] extension. *)
Definition sample (image : Mat uchar) (x y : Z) : Z :=
  zv (pixel image (borderInterpolate x (cols image)) (borderInterpolate y (rows image))).

(** The 3x3 Sobel responses, before any conversion of depth. *)
Definition sobel_dx (image : Mat uchar) (x y : Z) : Z :=
  (sample image (x + 1) (y - 1) - sample image (x - 1) (y - 1))
  + 2 * (sample image (x + 1) y - sample image (x - 1) y)
  + (sample image (x + 1) (y + 1) - sample image (x - 1) (y + 1)).

Definition sobel_dy (image : Mat uchar) (x y : Z) : Z :=
  (sample image (x - 1) (y + 1) - sample image (x - 1) (y - 1))
  + 2 * (sample image x (y + 1) - sample image x (y - 1))
  + (sample image (x + 1) (y + 1) - sample image (x + 1) (y - 1)).

(** [Sobel(image, grad, CV_8UC1, ..., 3, 1, 0, BORDER_DEFAULT)]: the
    destination depth is 8 bits unsigned, so each response is stored
    through [saturate_cast<uchar>]. *)
Definition Sobel_8U (response : Mat uchar -> Z -> Z -> Z) (image : Mat uchar) : Mat uchar :=
  mkMat (rows image) (cols image) (fun x y => u8 (response image x y)).

(** [convertScaleAbs(src, dst)] with scale 1 and shift 0. *)
Definition convertScaleAbs (src : Mat uchar) : Mat uchar :=
  mkMat (rows src) (cols src) (fun x y => u8 (Z.abs (zv (pixel src x y)))).

(** [cvRound(s / 2)] for a whole number [s >= 0]: ties go to the even
    neighbour. *)
Definition round_half (s : Z) : Z :=
  let q := s / 2 in
  if Z.even s then q else if Z.even q then q else q + 1.

(** [addWeighted(a, 0.5, b, 0.5, 0, dst)]. *)
Definition addWeighted_half (a b : Mat uchar) : Mat uchar :=
  mkMat (rows a) (cols a)
        (fun x y => u8 (round_half (zv (pixel a x y) + zv (pixel b x y)))).

Definition computeGradientImage (image : Mat uchar) : Mat uchar :=
  let grad_x := Sobel_8U sobel_dx image in
  let abs_grad_x := convertScaleAbs grad_x in
  let grad_y := Sobel_8U sobel_dy image in
  let abs_grad_y := convertScaleAbs grad_y in
  addWeighted_half abs_grad_x abs_grad_y.

(** The gradient magnitude in the words of the specification: the
    absolute value of each directional response scaled to a byte, and
    the equally weighted sum of the two, saturated. *)
Definition gradientMagnitude_spec (image : Mat uchar) (x y : Z) : uchar :=
  u8 (round_half (zv (u8 (Z.abs (sobel_dx image x y)))
                  + zv (u8 (Z.abs (sobel_dy image x y))))).

(** Three rows with a falling edge: each row is 255, 0, 0. *)
Definition falling_edge : Mat uchar :=
  mkMatRaw 3 3 [xff; x00; x00;
                xff; x00; x00;
                xff; x00; x00].

(** ** findLargestHorizontalLines *)

(** The positions of a [MORPH_RECT] element of [k] cells relative to its
    default anchor, the centre cell [k / 2]. *)
Definition kernel_offsets (k : Z) : list Z := seqZ (- (k ÷ 2)) k.

(** The values under the element placed at [(x, y)].  The default border
    of the morphological filters never wins a minimum or a maximum, so
    only the cells inside the image count. *)
Definition under_element (image : Mat uchar) (kw kh x y : Z) : list Z :=
  dy ← kernel_offsets kh;
  dx ← kernel_offsets kw;
  match at_ image (x + dx) (y + dy) with
  | Some v => [zv v]
  | None => []
  end.

(** The extreme values the two filters take over a list of samples; an
    empty list leaves the border value of the filter. *)
Definition least (l : list Z) : Z := foldr Z.min 255 l.
Definition greatest (l : list Z) : Z := foldr Z.max 0 l.

(** [cv::erode] and [cv::dilate] with a [kw] by [kh] rectangle: both take
    their extreme over the same cells, [src(x + x', y + y')]. *)
Definition erode (image : Mat uchar) (kw kh : Z) : Mat uchar :=
  mkMat (rows image) (cols image)
        (fun x y => u8 (least (under_element image kw kh x y))).

Definition dilate (image : Mat uchar) (kw kh : Z) : Mat uchar :=
  mkMat (rows image) (cols image)
        (fun x y => u8 (greatest (under_element image kw kh x y))).

(** [morphologyEx(src, dst, MORPH_OPEN, element)]. *)
Definition morph_open (image : Mat uchar) (kw kh : Z) : Mat uchar :=
  dilate (erode image kw kh) kw kh.

(** [getStructuringElement] rejects a size whose anchor does not lie
    inside the element, which is the case of a width of zero. *)
Definition findLargestHorizontalLines (image : Mat uchar) : option (Mat uchar) :=
  let kw := cols image ÷ 2 in
  if kw <=? 0 then None else Some (morph_open image kw 1).

(** A single row of four pixels: 255, 255, 0, 0. *)
Definition half_lit_row : Mat uchar := mkMatRaw 1 4 [xff; xff; x00; x00].

(** ** generateEnhancedCenterMask *)

(** Modelled from the spec: [padImage] of OcvUtilities is not part of
    the sources.  The specification has it pad the image on all sides
    with a synthetic background border; the amount [pad] is left open. *)
Definition padImage (pad : Z) (image : Mat uchar) : Mat uchar :=
  mkMat (rows image + 2 * pad) (cols image + 2 * pad)
        (fun x y => pixel image (x - pad) (y - pad)).

(** Modelled from the spec: [removePadding] of OcvUtilities is not part
    of the sources.  The specification has it strip the padding back off
    to return to the requested size. *)
Definition removePadding {A} (dflt : A) (pad : Z) (image : Mat A) : Mat A :=
  mkMat (rows image - 2 * pad) (cols image - 2 * pad)
        (fun x y => default dflt (at_ image (x + pad) (y + pad))).

(** All positions of a matrix, row by row. *)
Definition positions {A} (m : Mat A) : list (Z * Z) :=
  y ← seqZ 0 (rows m); x ← seqZ 0 (cols m); [(x, y)].

Definition zero_positions (m : Mat uchar) : list (Z * Z) :=
  filter (fun p => nonzero (pixel m p.1 p.2) = false) (positions m).

(** The chessboard distance. *)
Definition chessboard (x y : Z) (p : Z * Z) : Z :=
  Z.max (Z.abs (x - p.1)) (Z.abs (y - p.2)).

(** What the library reports where the image has no zero pixel at all:
    some large distance. *)
Definition DIST_FAR : Z := 2 ^ 29.

(** The least of the distances to the zero pixels. *)
Definition nearest (ds : list Z) : Z :=
  match ds with
  | [] => DIST_FAR
  | d :: ds' => foldr Z.min d ds'
  end.

(** [distanceTransform(src, dst, CV_DIST_C, 3)]: the chessboard distance
    of every pixel to the nearest zero pixel; with this metric the 3x3
    mask is exact.  The distances are whole numbers stored as floats. *)
Definition distanceTransform (src : Mat uchar) : Mat Z :=
  let zs := zero_positions src in
  mkMat (rows src) (cols src) (fun x y => nearest (chessboard x y <$> zs)).

(** [minMaxLoc(image, NULL, &maxVal)]. *)
Definition maxVal (image : Mat Z) : Z :=
  match data image with
  | [] => 0
  | v :: vs => foldl Z.max v vs
  end.

(** [image *= 1 / maxVal], in exact rational arithmetic: the rounding of
    the single-precision product is not modelled.  A maximum of zero
    makes the factor infinite and the products not numbers; that case
    has no rational counterpart. *)
Definition scale_by_inverse (image : Mat Z) (m : Z) : option (Mat Q) :=
  if m <=? 0 then None
  else Some (mkMat (rows image) (cols image)
                   (fun x y => let d := default 0 (at_ image x y) in
                               (inject_Z d * / inject_Z m)%Q)).

Definition generateEnhancedCenterMask (pad : Z) (width height : Z) : option (Mat Q) :=
  let image := ones height width in
  let padded := padImage pad image in
  let dist := distanceTransform padded in
  scaled ← scale_by_inverse dist (maxVal dist);
  Some (removePadding 0%Q pad scaled).

(** The entry of a mask, zero outside of it. *)
Definition mask_at (mask : Mat Q) (x y : Z) : Q := default 0%Q (at_ mask x y).

(** The chessboard distance from [(x, y)] to the outside of a [width]
    by [height] frame. *)
Definition depth (width height x y : Z) : Z :=
  Z.min (Z.min (x + 1) (width - x)) (Z.min (y + 1) (height - y)).

(** ** findLargestVerticalLines *)

(** The element is one cell wide and [height / 2] cells high; as for the
    horizontal lines, a height of zero is rejected. *)
Definition findLargestVerticalLines (image : Mat uchar) : option (Mat uchar) :=
  let kh := rows image ÷ 2 in
  if kh <=? 0 then None else Some (morph_open image 1 kh).

(** The image mirrored about its main diagonal. *)
Definition transpose (image : Mat uchar) : Mat uchar :=
  mkMat (cols image) (rows image) (fun x y => pixel image y x).

(** ** computeForegroundImage *)

Section ForegroundImage.
Variable MOG2 : Type.
Variable createBackgroundSubtractorMOG2 : MOG2.
Variable mog2_apply : MOG2 -> Mat uchar -> MOG2 * Mat uchar.

(** The loop keeps the estimator and [foregroundImage]; the body is the
    one of [computeForegroundImages] without the writes, and the last
    [foregroundImage] is returned. *)
Definition computeForegroundImage (images : list (Mat uchar)) : Mat uchar :=
  snd (foldl (fun s image => fg_frame MOG2 mog2_apply (fst s) (snd s) image)
             (createBackgroundSubtractorMOG2, empty_image) images).
End ForegroundImage.

(** The foreground of a frame under a mask: the pixels of the frame
    where the mask is not zero, zero elsewhere. *)
Definition masked (image mask : Mat uchar) : Mat uchar :=
  mkMat (rows image) (cols image)
        (fun x y => if nonzero (pixel mask x y) then pixel image x y else x00).

Section ForegroundMasks.
Variable MOG2 : Type.
Variable mog2_apply : MOG2 -> Mat uchar -> MOG2 * Mat uchar.

(** The masks the estimator yields for the frames, fed in order. *)
Fixpoint foreground_masks (model : MOG2) (images : list (Mat uchar)) : list (Mat uchar) :=
  match images with
  | [] => []
  | image :: rest =>
      snd (mog2_apply model image) :: foreground_masks (fst (mog2_apply model image)) rest
  end.

(** The estimator after it has seen the frames, in order. *)
Definition estimator_after (model : MOG2) (images : list (Mat uchar)) : MOG2 :=
  foldl (fun m image => fst (mog2_apply m image)) model images.
End ForegroundMasks.

(** ** Counting pixels *)

(** The number of elements of the buffer that equal [v]. *)
Definition count_value (v : uchar) (pixels : list uchar) : Z :=
  Z.of_nat (length (filter (fun p => Byte.eqb p v = true) pixels)).

(** The height of the bar of [bin] for a histogram and its largest bin. *)
Definition bar (hist : list Z) (max bin : Z) : Z :=
  (default 0 (hist !! Z.to_nat bin) * WINDOW_HEIGHT) ÷ max.

(** A 7x7 image, zero but for the outline of the square from (1, 1) to
    (5, 5), which is 255. *)
Definition hollow_frame : Mat uchar :=
  mkMat 7 7 (fun x y =>
    if ((1 <=? x) && (x <=? 5) && ((y =? 1) || (y =? 5)))
       || ((1 <=? y) && (y <=? 5) && ((x =? 1) || (x =? 5)))
    then xff else x00).

(** * Properties *)

(** ** Bytes *)

Lemma zv_range (b : uchar) : 0 <= zv b <= 255.
Proof.
  unfold zv. pose proof (Byte.to_N_bounded b) as H. lia.
Qed.

Lemma u8_zv (b : uchar) : u8 (zv b) = b.
Proof.
  pose proof (zv_range b) as H. unfold u8.
  destruct (Z.ltb_spec (zv b) 0); [lia|].
  destruct (Z.ltb_spec 255 (zv b)); [lia|].
  unfold zv. rewrite N2Z.id, Byte.of_to_N. reflexivity.
Qed.

Lemma zv_u8 (z : Z) : 0 <= z <= 255 -> zv (u8 z) = z.
Proof.
  intros H. unfold u8.
  destruct (Z.ltb_spec z 0); [lia|].
  destruct (Z.ltb_spec 255 z); [lia|].
  destruct (Byte.of_N (Z.to_N z)) as [b|] eqn:E.
  - apply Byte.to_of_N in E. unfold zv. rewrite E. lia.
  - apply Byte.of_N_None_iff in E. lia.
Qed.

Lemma zv_inj (a b : uchar) : zv a = zv b -> a = b.
Proof. intros H. rewrite <- (u8_zv a), <- (u8_zv b), H. reflexivity. Qed.

Lemma nonzero_true (b : uchar) : nonzero b = true <-> b <> x00.
Proof.
  unfold nonzero. split.
  - intros H ->. discriminate H.
  - intros H. destruct (Byte.eqb b x00) eqn:E; [|reflexivity].
    apply Byte.byte_dec_bl in E. contradiction.
Qed.

Lemma nonzero_false (b : uchar) : nonzero b = false <-> b = x00.
Proof.
  unfold nonzero. split.
  - intros H. apply Byte.byte_dec_bl. destruct (Byte.eqb b x00); [reflexivity|discriminate H].
  - intros ->. reflexivity.
Qed.

(** ** Matrices *)

Lemma in_range_true {A} (m : Mat A) x y :
  in_range m x y = true <-> 0 <= x < cols m /\ 0 <= y < rows m.
Proof. unfold in_range. rewrite !andb_true_iff. lia. Qed.

Lemma at_Some_in_range {A} (m : Mat A) x y v :
  at_ m x y = Some v -> 0 <= x < cols m /\ 0 <= y < rows m.
Proof.
  unfold at_. destruct (in_range m x y) eqn:E; [|discriminate].
  intros _. apply in_range_true. exact E.
Qed.

(** In a well-formed matrix every position inside the bounds can be read. *)
Lemma at_wf {A} (m : Mat A) x y :
  wf m -> 0 <= x < cols m -> 0 <= y < rows m -> exists v, at_ m x y = Some v.
Proof.
  intros (Hr & Hc & Hlen) Hx Hy. unfold at_.
  replace (in_range m x y) with true by (symmetry; apply in_range_true; lia).
  apply lookup_lt_is_Some_2. nia.
Qed.

Lemma offset_mod (c x y : Z) : 0 <= x < c -> (0 + (y * c + x)) mod c = x.
Proof.
  intros H. rewrite Z.add_0_l, Z.add_comm, Z.mod_add by lia.
  apply Z.mod_small. lia.
Qed.

Lemma offset_div (c x y : Z) : 0 <= x < c -> (0 + (y * c + x)) / c = y.
Proof.
  intros H. rewrite Z.add_0_l, Z.add_comm, Z.div_add by lia.
  rewrite Z.div_small by lia. lia.
Qed.

Lemma rows_mkMat {A} (r c : Z) (f : Z -> Z -> A) : rows (mkMat r c f) = r.
Proof. reflexivity. Qed.

Lemma cols_mkMat {A} (r c : Z) (f : Z -> Z -> A) : cols (mkMat r c f) = c.
Proof. reflexivity. Qed.

Lemma at_mkMat {A} (r c : Z) (f : Z -> Z -> A) x y :
  0 <= x < c -> 0 <= y < r -> at_ (mkMat r c f) x y = Some (f x y).
Proof.
  intros Hx Hy. unfold at_, mkMat. simpl.
  replace (in_range _ x y) with true
    by (symmetry; apply in_range_true; simpl; lia).
  rewrite !Z.max_r by lia.
  rewrite list_lookup_fmap, lookup_seqZ_lt by nia.
  simpl. rewrite Z2Nat.id by nia.
  rewrite offset_mod, offset_div by lia. reflexivity.
Qed.

Lemma at_mkMat_out {A} (r c : Z) (f : Z -> Z -> A) x y :
  ~ (0 <= x < c /\ 0 <= y < r) -> at_ (mkMat r c f) x y = None.
Proof.
  intros H. unfold at_.
  destruct (in_range (mkMat r c f) x y) eqn:E; [|reflexivity].
  apply in_range_true in E. simpl in E. tauto.
Qed.

Lemma wf_mkMat {A} (r c : Z) (f : Z -> Z -> A) : 0 <= r -> 0 <= c -> wf (mkMat r c f).
Proof.
  intros Hr Hc. unfold wf, mkMat. simpl.
  rewrite length_fmap, length_seqZ. repeat split; nia.
Qed.

(** Two tabulated matrices are equal as soon as their entries agree
    inside the bounds. *)
Lemma mkMat_ext {A} (r c : Z) (f g : Z -> Z -> A) :
  (forall x y, 0 <= x < c -> 0 <= y < r -> f x y = g x y) -> mkMat r c f = mkMat r c g.
Proof.
  intros H. unfold mkMat. f_equal.
  apply list_eq. intros i. rewrite !list_lookup_fmap.
  destruct (seqZ 0 (Z.max 0 r * Z.max 0 c) !! i) as [k|] eqn:E; [|reflexivity].
  apply lookup_seqZ in E as [-> E]. simpl. f_equal.
  assert (0 < c /\ 0 < r) as [? ?] by nia.
  rewrite !Z.max_r in E by lia.
  apply H.
  - apply Z.mod_pos_bound. lia.
  - split; [apply Z.div_pos; lia|].
    apply Z.div_lt_upper_bound; lia.
Qed.

Lemma pixel_mkMat (r c : Z) (f : Z -> Z -> uchar) x y :
  0 <= x < c -> 0 <= y < r -> pixel (mkMat r c f) x y = f x y.
Proof. intros Hx Hy. unfold pixel. rewrite at_mkMat by assumption. reflexivity. Qed.

Lemma pixel_zeros (r c x y : Z) : pixel (zeros r c) x y = x00.
Proof.
  unfold pixel, zeros.
  destruct (decide (0 <= x < c /\ 0 <= y < r)) as [[Hx Hy]|H].
  - rewrite at_mkMat by assumption. reflexivity.
  - rewrite at_mkMat_out by assumption. reflexivity.
Qed.

(** ** computeGelLocation *)

Section GelLocation.
Variable image : Mat uchar.

Local Abbreviation lit := (lit image).
Local Abbreviation tracks := (tracks image).

Lemma tracks_nothing e : tracks (fun _ _ => False) e e.
Proof. unfold tracks. repeat split; try lia; try tauto; contradiction. Qed.

Lemma tracks_weaken (seen seen' : Z -> Z -> Prop) e0 e :
  (forall x y, seen x y <-> seen' x y) -> tracks seen e0 e -> tracks seen' e0 e.
Proof.
  intros Heq (Hin & Hmono & Hl & Hr & Ht & Hb).
  unfold tracks. split; [|split; [exact Hmono|]].
  - intros x y Hs. apply Hin. apply Heq. exact Hs.
  - repeat split.
    + destruct Hl as [?|(y & ? & ?)]; [left; assumption|right; exists y; split; [apply Heq|]; assumption].
    + destruct Hr as [?|(y & ? & ?)]; [left; assumption|right; exists y; split; [apply Heq|]; assumption].
    + destruct Ht as [?|(x & ? & ?)]; [left; assumption|right; exists x; split; [apply Heq|]; assumption].
    + destruct Hb as [?|(x & ? & ?)]; [left; assumption|right; exists x; split; [apply Heq|]; assumption].
Qed.

Lemma tracks_trans (s1 s2 : Z -> Z -> Prop) e0 e1 e2 :
  tracks s1 e0 e1 -> tracks s2 e1 e2 -> tracks (fun x y => s1 x y \/ s2 x y) e0 e2.
Proof.
  intros (Hin1 & Hm1 & Hl1 & Hr1 & Ht1 & Hb1) (Hin2 & Hm2 & Hl2 & Hr2 & Ht2 & Hb2).
  unfold tracks. split; [|split; [lia|]].
  - intros x y [Hs|Hs] Hlit.
    + specialize (Hin1 x y Hs Hlit). lia.
    + apply (Hin2 x y Hs Hlit).
  - repeat split.
    + destruct Hl2 as [E|(y & ? & ?)]; [|right; exists y; tauto].
      rewrite E. destruct Hl1 as [?|(y & ? & ?)]; [left; assumption|right; exists y; tauto].
    + destruct Hr2 as [E|(y & ? & ?)]; [|right; exists y; tauto].
      rewrite E. destruct Hr1 as [?|(y & ? & ?)]; [left; assumption|right; exists y; tauto].
    + destruct Ht2 as [E|(x & ? & ?)]; [|right; exists x; tauto].
      rewrite E. destruct Ht1 as [?|(x & ? & ?)]; [left; assumption|right; exists x; tauto].
    + destruct Hb2 as [E|(x & ? & ?)]; [|right; exists x; tauto].
      rewrite E. destruct Hb1 as [?|(x & ? & ?)]; [left; assumption|right; exists x; tauto].
Qed.

(** A loop whose every iteration tracks its own positions tracks their
    union, and it does not fault. *)
Lemma foldlM_tracks {X} (body : Extremes -> X -> option Extremes)
      (seenX : X -> Z -> Z -> Prop) (xs : list X) :
  (forall e k, k ∈ xs -> exists e', body e k = Some e' /\ tracks (seenX k) e e') ->
  forall e0, exists e,
    foldlM body e0 xs = Some e
    /\ tracks (fun x y => exists k, k ∈ xs /\ seenX k x y) e0 e.
Proof.
  induction xs as [|k xs IH]; intros Hbody e0.
  - exists e0. split; [reflexivity|].
    apply (tracks_weaken (fun _ _ => False)); [|apply tracks_nothing].
    intros x y. split; [contradiction|].
    intros (k & Hk & _). inversion Hk.
  - destruct (Hbody e0 k) as (e1 & Hstep & Ht1); [left|].
    destruct (IH (fun e k' Hk' => Hbody e k' (list_elem_of_further _ _ _ Hk')) e1)
      as (e2 & Hrest & Ht2).
    exists e2. simpl. rewrite Hstep. split; [exact Hrest|].
    eapply tracks_weaken; [|exact (tracks_trans _ _ _ _ _ Ht1 Ht2)].
    intros x y. simpl. split.
    + intros [H|(k' & Hk' & H)]; [exists k; split; [left|exact H]|].
      exists k'. split; [right; exact Hk'|exact H].
    + intros (k' & Hk' & H). apply elem_of_cons in Hk' as [->|Hk'].
      * left. exact H.
      * right. exists k'. split; assumption.
Qed.

(** One execution of the innermost body. *)
Lemma gel_step_tracks i j e :
  (exists v, at_ image i j = Some v) ->
  exists e', gel_step image i e j = Some e'
             /\ tracks (fun x y => x = i /\ y = j) e e'.
Proof.
  intros [v Hv]. unfold gel_step. rewrite Hv.
  destruct (nonzero v) eqn:Hnz.
  - eexists. split; [reflexivity|].
    assert (lit i j) as Hlit by (exists v; split; assumption).
    unfold tracks. simpl.
    destruct (Z.ltb_spec i (leftMost e)), (Z.ltb_spec (rightMost e) i),
             (Z.ltb_spec j (topMost e)), (Z.ltb_spec (bottomMost e) j);
      (split; [intros x y [-> ->] _; lia|]);
      (split; [lia|]);
      repeat split;
      solve [left; reflexivity
            | right; exists j; split; [split; reflexivity|exact Hlit]
            | right; exists i; split; [split; reflexivity|exact Hlit]].
  - exists e. split; [reflexivity|].
    unfold tracks. split; [|repeat split; try lia; left; reflexivity].
    intros x y [-> ->] (v' & Hv' & Hnz'). congruence.
Qed.

Hypothesis image_wf : wf image.

(** The whole scan: it reads only inside the image, and its result
    accounts for every non-zero pixel. *)
Lemma gel_scan_tracks :
  exists e, gel_scan image = Some e
            /\ tracks (fun x y => 0 <= x < cols image /\ 0 <= y < rows image)
                      (mkExtremes (cols image - 1) 0 (rows image - 1) 0) e.
Proof.
  unfold gel_scan.
  destruct (foldlM_tracks
              (fun e i => foldlM (gel_step image i) e (seqZ 0 (rows image)))
              (fun i x y => x = i /\ 0 <= y < rows image)
              (seqZ 0 (cols image))) with (e0 := mkExtremes (cols image - 1) 0 (rows image - 1) 0)
    as (e & He & Ht).
  - intros e0 i Hi. apply elem_of_seqZ in Hi.
    destruct (foldlM_tracks (gel_step image i) (fun j x y => x = i /\ y = j)
                            (seqZ 0 (rows image))) with (e0 := e0) as (e' & He' & Ht').
    + intros e1 j Hj. apply elem_of_seqZ in Hj.
      apply gel_step_tracks. apply at_wf; [exact image_wf|lia|lia].
    + exists e'. split; [exact He'|].
      eapply tracks_weaken; [|exact Ht'].
      intros x y. simpl. split.
      * intros (j & Hj & -> & ->). apply elem_of_seqZ in Hj. lia.
      * intros [-> Hy]. exists y. split; [apply elem_of_seqZ; lia|tauto].
  - exists e. split; [exact He|].
    eapply tracks_weaken; [|exact Ht].
    intros x y. simpl. split.
    + intros (i & Hi & -> & Hy). apply elem_of_seqZ in Hi. lia.
    + intros [Hx Hy]. exists x. split; [apply elem_of_seqZ; lia|tauto].
Qed.
End GelLocation.

Lemma lit_in_range (image : Mat uchar) x y :
  lit image x y -> 0 <= x < cols image /\ 0 <= y < rows image.
Proof. intros (v & Hv & _). apply (at_Some_in_range _ _ _ _ Hv). Qed.

Lemma computeGelLocation_scan (image : Mat uchar) e :
  gel_scan image = Some e ->
  computeGelLocation image
  = Some (mkRect (leftMost e) (topMost e)
                 (rightMost e - leftMost e) (bottomMost e - topMost e)).
Proof. intros H. unfold computeGelLocation. rewrite H. reflexivity. Qed.

(** With a non-zero pixel somewhere, the extremes found by the scan are
    the span of the non-zero pixels. *)
Lemma gel_scan_span (image : Mat uchar) :
  wf image -> (exists x y, lit image x y) ->
  exists e, gel_scan image = Some e
            /\ lit_span image (leftMost e) (rightMost e) (topMost e) (bottomMost e).
Proof.
  intros Hwf (x0 & y0 & Hlit0).
  destruct (gel_scan_tracks image Hwf) as (e & He & Hin & _ & Hl & Hr & Ht & Hb).
  pose proof (lit_in_range _ _ _ Hlit0) as Hrange0.
  pose proof (Hin x0 y0 Hrange0 Hlit0) as Hbox0.
  simpl in Hl, Hr, Ht, Hb.
  exists e. split; [exact He|].
  unfold lit_span. split; [|repeat split].
  - intros x y Hlit. apply Hin; [apply lit_in_range|]; exact Hlit.
  - destruct Hl as [E|(y & _ & H)]; [|exists y; exact H].
    exists y0. replace (leftMost e) with x0 by lia. exact Hlit0.
  - destruct Hr as [E|(y & _ & H)]; [|exists y; exact H].
    exists y0. replace (rightMost e) with x0 by lia. exact Hlit0.
  - destruct Ht as [E|(x & _ & H)]; [|exists x; exact H].
    exists x0. replace (topMost e) with y0 by lia. exact Hlit0.
  - destruct Hb as [E|(x & _ & H)]; [|exists x; exact H].
    exists x0. replace (bottomMost e) with y0 by lia. exact Hlit0.
Qed.

(** C1.  On a well-formed image with at least one non-zero pixel,
    [computeGelLocation] returns [Rect(minX, minY, maxX - minX, maxY - minY)]
    where [minX], [maxX], [minY], [maxY] are the least and greatest
    coordinates of the non-zero pixels.  Hence the width and the height
    are not negative, every pixel outside the inclusive span is zero,
    each of the four edges of the span carries a non-zero pixel, and an
    image whose only non-zero pixel is [(x0, y0)] gives
    [Rect(x0, y0, 0, 0)]. *)
Theorem computeGelLocation_bounding_rectangle (image : Mat uchar) :
  wf image -> (exists x y, lit image x y) ->
  exists minX maxX minY maxY,
    computeGelLocation image = Some (mkRect minX minY (maxX - minX) (maxY - minY))
    /\ lit_span image minX maxX minY maxY
    /\ 0 <= maxX - minX /\ 0 <= maxY - minY
    /\ (forall x y v, at_ image x y = Some v ->
          ~ (minX <= x <= maxX /\ minY <= y <= maxY) -> v = x00)
    /\ (exists y, minY <= y <= maxY /\ lit image minX y)
    /\ (exists y, minY <= y <= maxY /\ lit image maxX y)
    /\ (exists x, minX <= x <= maxX /\ lit image x minY)
    /\ (exists x, minX <= x <= maxX /\ lit image x maxY)
    /\ (forall x0 y0, lit image x0 y0 ->
          (forall x y, lit image x y -> x = x0 /\ y = y0) ->
          computeGelLocation image = Some (mkRect x0 y0 0 0)).
Proof.
  intros Hwf Hex.
  destruct (gel_scan_span image Hwf Hex) as (e & He & Hspan).
  exists (leftMost e), (rightMost e), (topMost e), (bottomMost e).
  split; [apply computeGelLocation_scan; exact He|].
  split; [exact Hspan|].
  destruct Hspan as (Hin & [yl Hl] & [yr Hr] & [xt Ht] & [xb Hb]).
  pose proof (Hin _ _ Hl). pose proof (Hin _ _ Hr).
  pose proof (Hin _ _ Ht). pose proof (Hin _ _ Hb).
  split; [lia|]. split; [lia|].
  split.
  { intros x y v Hv Hout. apply nonzero_false.
    destruct (nonzero v) eqn:Hnz; [|reflexivity].
    exfalso. apply Hout. apply Hin. exists v. split; assumption. }
  split; [exists yl; split; [lia|exact Hl]|].
  split; [exists yr; split; [lia|exact Hr]|].
  split; [exists xt; split; [lia|exact Ht]|].
  split; [exists xb; split; [lia|exact Hb]|].
  intros x0 y0 _ Honly.
  rewrite (computeGelLocation_scan _ _ He).
  destruct (Honly _ _ Hl) as [-> _]. destruct (Honly _ _ Hr) as [-> _].
  destruct (Honly _ _ Ht) as [_ ->]. destruct (Honly _ _ Hb) as [_ ->].
  rewrite !Z.sub_diag. reflexivity.
Qed.

Lemma block_8x8_wf : wf block_8x8.
Proof. apply wf_mkMat; lia. Defined.

Lemma block_8x8_lit : exists x y, lit block_8x8 x y.
Proof. exists 3, 3, xff. split; reflexivity. Defined.

(** The theorem at the 8x8 example of the specification. *)
Lemma computeGelLocation_bounding_rectangle_witness :
  exists minX maxX minY maxY,
    computeGelLocation block_8x8 = Some (mkRect minX minY (maxX - minX) (maxY - minY))
    /\ lit_span block_8x8 minX maxX minY maxY
    /\ 0 <= maxX - minX /\ 0 <= maxY - minY
    /\ (forall x y v, at_ block_8x8 x y = Some v ->
          ~ (minX <= x <= maxX /\ minY <= y <= maxY) -> v = x00)
    /\ (exists y, minY <= y <= maxY /\ lit block_8x8 minX y)
    /\ (exists y, minY <= y <= maxY /\ lit block_8x8 maxX y)
    /\ (exists x, minX <= x <= maxX /\ lit block_8x8 x minY)
    /\ (exists x, minX <= x <= maxX /\ lit block_8x8 x maxY)
    /\ (forall x0 y0, lit block_8x8 x0 y0 ->
          (forall x y, lit block_8x8 x y -> x = x0 /\ y = y0) ->
          computeGelLocation block_8x8 = Some (mkRect x0 y0 0 0)).
Proof.
  apply (computeGelLocation_bounding_rectangle block_8x8).
  - exact block_8x8_wf.
  - exact block_8x8_lit.
Defined.

Example computeGelLocation_block_8x8 :
  computeGelLocation block_8x8 = Some (mkRect 3 3 1 1).
Proof. vm_compute. reflexivity. Qed.

(** ** computeGelLocation on an image without any non-zero pixel *)

Lemma gel_scan_all_zero (image : Mat uchar) :
  wf image -> (forall x y, ~ lit image x y) ->
  gel_scan image = Some (mkExtremes (cols image - 1) 0 (rows image - 1) 0).
Proof.
  intros Hwf Hzero.
  destruct (gel_scan_tracks image Hwf) as (e & He & _ & _ & Hl & Hr & Ht & Hb).
  rewrite He. f_equal. simpl in Hl, Hr, Ht, Hb.
  destruct e as [l r t b]. simpl in *.
  destruct Hl as [->|(y & _ & H)]; [|destruct (Hzero _ _ H)].
  destruct Hr as [->|(y & _ & H)]; [|destruct (Hzero _ _ H)].
  destruct Ht as [->|(x & _ & H)]; [|destruct (Hzero _ _ H)].
  destruct Hb as [->|(x & _ & H)]; [|destruct (Hzero _ _ H)].
  reflexivity.
Qed.

Lemma zeros_not_lit (r c x y : Z) : ~ lit (zeros r c) x y.
Proof.
  intros (v & Hv & Hnz).
  pose proof (at_Some_in_range _ _ _ _ Hv) as [Hx Hy]. simpl in Hx, Hy.
  unfold zeros in Hv. rewrite at_mkMat in Hv by assumption.
  injection Hv as <-. discriminate Hnz.
Qed.

(** C2, as the code has it.  On a well-formed image without any
    non-zero pixel, [computeGelLocation] returns, without a fault and
    without clamping, the rectangle of the untouched initial values,
    [Rect(width - 1, height - 1, 1 - width, 1 - height)].  Its width is
    negative exactly when the image is at least two pixels wide and its
    height exactly when the image is at least two pixels high. *)
Theorem computeGelLocation_all_zero (image : Mat uchar) :
  wf image -> (forall x y, ~ lit image x y) ->
  computeGelLocation image
  = Some (mkRect (cols image - 1) (rows image - 1) (1 - cols image) (1 - rows image))
  /\ (1 - cols image < 0 <-> 2 <= cols image)
  /\ (1 - rows image < 0 <-> 2 <= rows image).
Proof.
  intros Hwf Hzero. split; [|lia].
  rewrite (computeGelLocation_scan _ _ (gel_scan_all_zero image Hwf Hzero)).
  simpl. do 2 f_equal; lia.
Qed.

(** The theorem at a 3-row, 4-column image of zeros. *)
Lemma computeGelLocation_all_zero_witness :
  computeGelLocation (zeros 3 4)
  = Some (mkRect (cols (zeros 3 4) - 1) (rows (zeros 3 4) - 1)
                 (1 - cols (zeros 3 4)) (1 - rows (zeros 3 4)))
  /\ (1 - cols (zeros 3 4) < 0 <-> 2 <= cols (zeros 3 4))
  /\ (1 - rows (zeros 3 4) < 0 <-> 2 <= rows (zeros 3 4)).
Proof.
  apply (computeGelLocation_all_zero (zeros 3 4)).
  - apply wf_mkMat; lia.
  - apply zeros_not_lit.
Defined.

(** C2, as stated, fails on the 1x1 image of zeros: the rectangle is
    [Rect(0, 0, 0, 0)], whose width and height are not negative. *)
Lemma computeGelLocation_all_zero_1x1 :
  wf (zeros 1 1)
  /\ (forall x y, ~ lit (zeros 1 1) x y)
  /\ computeGelLocation (zeros 1 1) = Some (mkRect 0 0 0 0)
  /\ ~ (rect_width (mkRect 0 0 0 0) < 0)
  /\ ~ (rect_height (mkRect 0 0 0 0) < 0).
Proof.
  split; [apply wf_mkMat; lia|].
  split; [apply zeros_not_lit|].
  split; [vm_compute; reflexivity|].
  simpl. lia.
Qed.

(** ** computeInnermostRectangle *)

Lemma down_to_zero_succ (n : Z) : 0 <= n -> down_to_zero (n + 1) = (n + 1) :: down_to_zero n.
Proof.
  intros Hn. unfold down_to_zero.
  replace (n + 1 + 1) with (Z.of_nat (S (Z.to_nat (n + 1)))) by lia.
  rewrite seqZ_S, reverse_app, reverse_singleton, Z2Nat.id by lia.
  reflexivity.
Qed.

Lemma down_to_zero_head (n : Z) : 0 <= n -> exists rest, down_to_zero n = n :: rest.
Proof.
  intros Hn. destruct (decide (n = 0)) as [->|Hne].
  - exists []. reflexivity.
  - exists (down_to_zero (n - 1)).
    replace n with (n - 1 + 1) at 1 by lia.
    rewrite down_to_zero_succ by lia. f_equal. lia.
Qed.

Lemma up_to_head (from to : Z) : from < to -> exists rest, up_to from to = from :: rest.
Proof.
  intros H. unfold up_to. rewrite seqZ_cons by lia. eexists. reflexivity.
Qed.

Section Rays.
Variable read : Z -> option uchar.

Local Abbreviation hit := (fun i => exists v, read i = Some v /\ nonzero v = true).

Lemma first_nonzero_down (k : nat) :
  (forall j, 0 <= j <= Z.of_nat k -> exists v, read j = Some v) ->
  exists f, first_nonzero read (down_to_zero (Z.of_nat k)) = Some f
            /\ ray_decreasing hit (Z.of_nat k) (default 0 f).
Proof.
  induction k as [|k IH]; intros Hread.
  - destruct (Hread 0) as [v Hv]; [lia|].
    change (down_to_zero (Z.of_nat 0)) with [0].
    simpl. rewrite Hv. destruct (nonzero v) eqn:Hnz.
    + exists (Some 0). split; [reflexivity|]. left. simpl.
      split; [lia|]. split; [exists v; tauto|]. intros j Hj. lia.
    + exists None. split; [reflexivity|]. right. simpl.
      split; [reflexivity|]. intros j Hj (v' & Hv' & Hnz').
      replace j with 0 in Hv' by lia. congruence.
  - destruct (Hread (Z.of_nat (S k))) as [v Hv]; [lia|].
    replace (Z.of_nat (S k)) with (Z.of_nat k + 1) in * by lia.
    rewrite down_to_zero_succ by lia. simpl. rewrite Hv.
    destruct (nonzero v) eqn:Hnz.
    + exists (Some (Z.of_nat k + 1)). split; [reflexivity|]. left. simpl.
      split; [lia|]. split; [exists v; tauto|]. intros j Hj. lia.
    + destruct IH as (f & Hf & Hray); [intros j Hj; apply Hread; lia|].
      exists f. split; [exact Hf|].
      assert (~ hit (Z.of_nat k + 1)) as Hmiss
          by (intros (v' & Hv' & Hnz'); congruence).
      destruct Hray as [(Hb & Hhit & Hbefore)|(Hb & Hnone)].
      * left. split; [lia|]. split; [exact Hhit|].
        intros j Hj. destruct (decide (j = Z.of_nat k + 1)) as [->|Hne];
          [exact Hmiss|apply Hbefore; lia].
      * right. split; [exact Hb|].
        intros j Hj. destruct (decide (j = Z.of_nat k + 1)) as [->|Hne];
          [exact Hmiss|apply Hnone; lia].
Qed.

Lemma first_nonzero_up (k : nat) (from limit : Z) :
  limit = from + Z.of_nat k ->
  (forall j, from <= j < limit -> exists v, read j = Some v) ->
  exists f, first_nonzero read (up_to from limit) = Some f
            /\ ray_increasing hit from limit (default limit f).
Proof.
  revert from. induction k as [|k IH]; intros from Hlim Hread.
  - exists None. unfold up_to. rewrite seqZ_nil by lia.
    split; [reflexivity|]. right. simpl. split; [reflexivity|]. intros j Hj. lia.
  - destruct (Hread from) as [v Hv]; [lia|].
    unfold up_to. rewrite seqZ_cons by lia. simpl. rewrite Hv.
    destruct (nonzero v) eqn:Hnz.
    + exists (Some from). split; [reflexivity|]. left. simpl.
      split; [lia|]. split; [exists v; tauto|]. intros j Hj. lia.
    + destruct (IH (from + 1)) as (f & Hf & Hray); [lia|intros j Hj; apply Hread; lia|].
      exists f. unfold up_to in Hf.
      replace (Z.succ from) with (from + 1) by lia.
      replace (Z.pred (limit - from)) with (limit - (from + 1)) by lia.
      split; [exact Hf|].
      assert (~ hit from) as Hmiss by (intros (v' & Hv' & Hnz'); congruence).
      destruct Hray as [(Hb & Hhit & Hbefore)|(Hb & Hnone)].
      * left. split; [lia|]. split; [exact Hhit|].
        intros j Hj. destruct (decide (j = from)) as [->|Hne];
          [exact Hmiss|apply Hbefore; lia].
      * right. split; [exact Hb|].
        intros j Hj. destruct (decide (j = from)) as [->|Hne];
          [exact Hmiss|apply Hnone; lia].
Qed.
End Rays.

(** C3.  On a well-formed image with at least one row and one column,
    [computeInnermostRectangle] scans four rays from the centre pixel
    [(width / 2, height / 2)]: up and left towards 0, down and right
    towards the last row and column.  Each ray stops at its first
    non-zero pixel; a ray without one keeps its default (0 for up and
    left, [height] for down, [width] for right).  The result is
    [Rect(left, up, right - left, down - up)]; for an image of zeros it
    is [Rect(0, 0, width, height)]. *)
Theorem computeInnermostRectangle_rays (image : Mat uchar) :
  wf image -> 0 < rows image -> 0 < cols image ->
  exists l u r d,
    computeInnermostRectangle image = Some (mkRect l u (r - l) (d - u))
    /\ ray_decreasing (fun i => lit image (cols image / 2) i) (rows image / 2) u
    /\ ray_increasing (fun i => lit image (cols image / 2) i) (rows image / 2) (rows image) d
    /\ ray_decreasing (fun i => lit image i (rows image / 2)) (cols image / 2) l
    /\ ray_increasing (fun i => lit image i (rows image / 2)) (cols image / 2) (cols image) r
    /\ ((forall x y, ~ lit image x y) ->
        computeInnermostRectangle image = Some (mkRect 0 0 (cols image) (rows image))).
Proof.
  intros Hwf Hrows Hcols.
  unfold computeInnermostRectangle.
  rewrite !Z.quot_div_nonneg by lia.
  set (cx := cols image / 2). set (cy := rows image / 2).
  assert (0 <= cx < cols image) as Hcx
      by (unfold cx; split; [apply Z.div_pos; lia|apply Z.div_lt_upper_bound; lia]).
  assert (0 <= cy < rows image) as Hcy
      by (unfold cy; split; [apply Z.div_pos; lia|apply Z.div_lt_upper_bound; lia]).
  destruct (first_nonzero_down (fun i => at_ image cx i) (Z.to_nat cy))
    as (fu & Hfu & Hu); [intros j Hj; apply at_wf; [exact Hwf|lia|lia]|].
  destruct (first_nonzero_up (fun i => at_ image cx i) (Z.to_nat (rows image - cy)) cy (rows image))
    as (fd & Hfd & Hd); [lia|intros j Hj; apply at_wf; [exact Hwf|lia|lia]|].
  destruct (first_nonzero_down (fun i => at_ image i cy) (Z.to_nat cx))
    as (fl & Hfl & Hl); [intros j Hj; apply at_wf; [exact Hwf|lia|lia]|].
  destruct (first_nonzero_up (fun i => at_ image i cy) (Z.to_nat (cols image - cx)) cx (cols image))
    as (fr & Hfr & Hr); [lia|intros j Hj; apply at_wf; [exact Hwf|lia|lia]|].
  rewrite Z2Nat.id in Hfu, Hu, Hfl, Hl by lia.
  rewrite Hfu, Hfd, Hfl, Hfr. simpl.
  exists (default 0 fl), (default 0 fu), (default (cols image) fr), (default (rows image) fd).
  split; [reflexivity|].
  split; [exact Hu|]. split; [exact Hd|]. split; [exact Hl|]. split; [exact Hr|].
  intros Hzero.
  destruct Hu as [(_ & H & _)|(-> & _)]; [destruct (Hzero _ _ H)|].
  destruct Hd as [(_ & H & _)|(-> & _)]; [destruct (Hzero _ _ H)|].
  destruct Hl as [(_ & H & _)|(-> & _)]; [destruct (Hzero _ _ H)|].
  destruct Hr as [(_ & H & _)|(-> & _)]; [destruct (Hzero _ _ H)|].
  rewrite !Z.sub_0_r. reflexivity.
Qed.

Lemma block_8x8_rows : 0 < rows block_8x8.
Proof. reflexivity. Defined.

Lemma block_8x8_cols : 0 < cols block_8x8.
Proof. reflexivity. Defined.

(** The theorem at the 8x8 example image. *)
Lemma computeInnermostRectangle_rays_witness :
  exists l u r d,
    computeInnermostRectangle block_8x8 = Some (mkRect l u (r - l) (d - u))
    /\ ray_decreasing (fun i => lit block_8x8 (cols block_8x8 / 2) i) (rows block_8x8 / 2) u
    /\ ray_increasing (fun i => lit block_8x8 (cols block_8x8 / 2) i) (rows block_8x8 / 2)
                      (rows block_8x8) d
    /\ ray_decreasing (fun i => lit block_8x8 i (rows block_8x8 / 2)) (cols block_8x8 / 2) l
    /\ ray_increasing (fun i => lit block_8x8 i (rows block_8x8 / 2)) (cols block_8x8 / 2)
                      (cols block_8x8) r
    /\ ((forall x y, ~ lit block_8x8 x y) ->
        computeInnermostRectangle block_8x8 = Some (mkRect 0 0 (cols block_8x8) (rows block_8x8))).
Proof.
  apply (computeInnermostRectangle_rays block_8x8).
  - exact block_8x8_wf.
  - exact block_8x8_rows.
  - exact block_8x8_cols.
Defined.

Example computeInnermostRectangle_zeros :
  computeInnermostRectangle (zeros 3 4) = Some (mkRect 0 0 4 3).
Proof. vm_compute. reflexivity. Qed.

(** C10.  When the centre pixel [(width / 2, height / 2)] is itself
    non-zero, every one of the four scans stops at once and
    [computeInnermostRectangle] returns the empty rectangle at the
    centre, [Rect(width / 2, height / 2, 0, 0)]. *)
Theorem computeInnermostRectangle_center_lit (image : Mat uchar) :
  lit image (cols image / 2) (rows image / 2) ->
  computeInnermostRectangle image
  = Some (mkRect (cols image / 2) (rows image / 2) 0 0).
Proof.
  intros Hlit.
  pose proof (lit_in_range _ _ _ Hlit) as [Hx Hy].
  destruct Hlit as (v & Hv & Hnz).
  unfold computeInnermostRectangle.
  rewrite !Z.quot_div_nonneg by lia.
  set (cx := cols image / 2) in *. set (cy := rows image / 2) in *.
  destruct (down_to_zero_head cy) as [ru ->]; [lia|].
  destruct (up_to_head cy (rows image)) as [rd ->]; [lia|].
  destruct (down_to_zero_head cx) as [rl ->]; [lia|].
  destruct (up_to_head cx (cols image)) as [rr ->]; [lia|].
  simpl. rewrite Hv, Hnz. simpl. rewrite !Z.sub_diag. reflexivity.
Qed.

(** The theorem at the 8x8 example image, whose centre (4, 4) is 255. *)
Lemma computeInnermostRectangle_center_lit_witness :
  computeInnermostRectangle block_8x8
  = Some (mkRect (cols block_8x8 / 2) (rows block_8x8 / 2) 0 0).
Proof.
  apply (computeInnermostRectangle_center_lit block_8x8).
  exists xff. split; reflexivity.
Defined.

(** ** plotHistogram: the tally *)

Lemma sumZ_alter (f : Z -> Z) (i : nat) (l : list Z) (v : Z) :
  l !! i = Some v -> sumZ (alter f i l) = sumZ l - v + f v.
Proof.
  revert i. induction l as [|a l IH]; intros i Hi; [discriminate Hi|].
  destruct i as [|i]; simpl in Hi.
  - injection Hi as ->. unfold sumZ. simpl. lia.
  - specialize (IH i Hi). unfold sumZ in *. simpl.
    change (list_alter f i l) with (alter f i l). lia.
Qed.

Lemma sumZ_bounds_entry (l : list Z) (i : nat) (v : Z) :
  Forall (fun x => 0 <= x) l -> l !! i = Some v -> 0 <= v <= sumZ l.
Proof.
  intros Hall. revert i. induction Hall as [|a l Ha Hall IH]; intros i Hi; [discriminate Hi|].
  assert (0 <= sumZ l) as Hsum.
  { clear -Hall. unfold sumZ. induction Hall as [|b l Hb _ IH]; simpl; lia. }
  destruct i as [|i]; simpl in Hi.
  - injection Hi as ->. unfold sumZ in *. simpl. lia.
  - specialize (IH i Hi). unfold sumZ in *. simpl. lia.
Qed.

(** One [++] on a bin adds exactly one to the sum, as long as the sum is
    still below 2^53. *)
Lemma tally_step (hist : list Z) (v : uchar) :
  length hist = 256%nat -> Forall (fun x => 0 <= x) hist -> sumZ hist < 2 ^ 53 ->
  let hist' := alter double_incr (Byte.to_nat v) hist in
  length hist' = 256%nat /\ Forall (fun x => 0 <= x) hist' /\ sumZ hist' = sumZ hist + 1.
Proof.
  intros Hlen Hall Hsum hist'.
  pose proof (Byte.to_nat_bounded v) as Hv.
  destruct (lookup_lt_is_Some_2 hist (Byte.to_nat v)) as [b Hb]; [lia|].
  pose proof (sumZ_bounds_entry _ _ _ Hall Hb) as Hbound.
  assert (double_incr b = b + 1) as Hincr
      by (unfold double_incr; destruct (Z.ltb_spec b (2 ^ 53)); lia).
  split; [unfold hist'; rewrite length_alter; exact Hlen|].
  split.
  - unfold hist'. apply Forall_alter; [exact Hall|].
    intros x Hx. rewrite Hb in Hx. injection Hx as <-. lia.
  - unfold hist'. rewrite (sumZ_alter _ _ _ _ Hb), Hincr. lia.
Qed.

Lemma tally_loop (pixels : list uchar) (hist : list Z) :
  length hist = 256%nat -> Forall (fun x => 0 <= x) hist ->
  sumZ hist + Z.of_nat (length pixels) <= 2 ^ 53 ->
  let hist' := foldl (fun hist v => alter double_incr (Byte.to_nat v) hist) hist pixels in
  length hist' = 256%nat /\ sumZ hist' = sumZ hist + Z.of_nat (length pixels).
Proof.
  revert hist. induction pixels as [|v pixels IH]; intros hist Hlen Hall Hsum.
  - simpl. split; [exact Hlen|lia].
  - simpl in Hsum |- *.
    destruct (tally_step hist v Hlen Hall) as (Hlen' & Hall' & Hsum'); [lia|].
    destruct (IH _ Hlen' Hall') as [Hl Hs]; [lia|].
    split; [exact Hl|]. rewrite Hs. lia.
Qed.

(** C9.  For a well-formed image whose number of pixels a [double] can
    count exactly (at most 2^53), the histogram has 256 bins and their
    counts add up to width times height. *)
Theorem tally_sum (image : Mat uchar) :
  wf image -> rows image * cols image <= 2 ^ 53 ->
  length (tally image) = 256%nat
  /\ sumZ (tally image) = cols image * rows image.
Proof.
  intros (Hr & Hc & Hlen) Hsize.
  destruct (tally_loop (data image) (replicate (Z.to_nat NUMBER_OF_BINS) 0)) as [Hl Hs].
  - reflexivity.
  - apply Forall_replicate. lia.
  - change (sumZ (replicate (Z.to_nat NUMBER_OF_BINS) 0)) with 0. lia.
  - split; [exact Hl|].
    unfold tally. rewrite Hs.
    change (sumZ (replicate (Z.to_nat NUMBER_OF_BINS) 0)) with 0. lia.
Qed.

(** The theorem at a 2-row, 3-column image. *)
Lemma tally_sum_witness :
  let image := mkMatRaw 2 3 [x01; x00; xff; x01; x01; x07] in
  length (tally image) = 256%nat
  /\ sumZ (tally image) = cols image * rows image.
Proof.
  apply (tally_sum (mkMatRaw 2 3 [x01; x00; xff; x01; x01; x07])).
  - unfold wf. simpl. lia.
  - simpl. lia.
Defined.

(** ** plotHistogram: the bars *)

Lemma hist_max_loop_ge (hist : list Z) (m0 : Z) :
  let m := foldl (fun max binValue => if max <? binValue then binValue else max) m0 hist in
  m0 <= m /\ forall x, x ∈ hist -> x <= m.
Proof.
  revert m0. induction hist as [|a hist IH]; intros m0; simpl.
  - split; [lia|]. intros x Hx. inversion Hx.
  - destruct (IH (if m0 <? a then a else m0)) as [Hge Hall].
    destruct (Z.ltb_spec m0 a); (split; [lia|]);
      intros x Hx; apply elem_of_cons in Hx as [->|Hx]; try lia; apply Hall; exact Hx.
Qed.

(** Counts never go down while the tally runs. *)
Lemma tally_loop_mono (pixels : list uchar) (hist : list Z) (i : nat) (b : Z) :
  hist !! i = Some b ->
  exists b', foldl (fun hist v => alter double_incr (Byte.to_nat v) hist) hist pixels !! i = Some b'
             /\ b <= b'.
Proof.
  revert hist b. induction pixels as [|v pixels IH]; intros hist b Hb; simpl.
  - exists b. split; [exact Hb|lia].
  - destruct (IH (alter double_incr (Byte.to_nat v) hist)
                 (if decide (Byte.to_nat v = i) then double_incr b else b))
      as (b' & Hb' & Hle).
    + rewrite list_lookup_alter. destruct (decide (Byte.to_nat v = i)) as [->|Hne].
      * rewrite Hb. reflexivity.
      * exact Hb.
    + exists b'. split; [exact Hb'|].
      destruct (decide (Byte.to_nat v = i)); [|lia].
      unfold double_incr in Hle. destruct (Z.ltb_spec b (2 ^ 53)); lia.
Qed.

(** The largest bin is zero only for an image without pixels. *)
Lemma hist_max_zero (image : Mat uchar) :
  hist_max (tally image) = 0 <-> data image = [].
Proof.
  split.
  - intros Hmax. destruct (data image) as [|v pixels] eqn:Hdata; [reflexivity|].
    exfalso. unfold tally in Hmax. rewrite Hdata in Hmax. cbn [foldl] in Hmax.
    pose proof (Byte.to_nat_bounded v) as Hv.
    destruct (tally_loop_mono pixels
                (alter double_incr (Byte.to_nat v) (replicate (Z.to_nat NUMBER_OF_BINS) 0))
                (Byte.to_nat v) 1) as (b' & Hb' & Hle).
    + rewrite list_lookup_alter_eq, lookup_replicate_2 by (change (Z.to_nat NUMBER_OF_BINS) with 256%nat; lia).
      reflexivity.
    + apply list_elem_of_lookup_2 in Hb'.
      unfold hist_max in Hmax.
      match type of Hb' with _ ∈ ?hist =>
        pose proof (hist_max_loop_ge hist 0) as [_ Hall]
      end.
      specialize (Hall _ Hb'). lia.
  - intros Hdata. unfold tally. rewrite Hdata. reflexivity.
Qed.

(** With a largest bin of zero the very first bar has no defined
    height, and no plot is produced. *)
Lemma plotHistogram_zero_max (image : Mat uchar) :
  hist_max (tally image) = 0 -> plotHistogram image = None.
Proof.
  intros Hmax. unfold plotHistogram. rewrite Hmax.
  unfold NUMBER_OF_BINS. rewrite seqZ_cons by lia.
  cbn [foldlM]. unfold binHeight at 1. reflexivity.
Qed.

(** With at least one pixel the largest bin is positive, every bar has
    a height, and the plot is produced. *)
Lemma plotHistogram_defined (image : Mat uchar) :
  data image <> [] -> exists plot, plotHistogram image = Some plot.
Proof.
  intros Hdata.
  assert (hist_max (tally image) <> 0) as Hmax
      by (intros H; apply hist_max_zero in H; contradiction).
  unfold plotHistogram.
  generalize (zeros WINDOW_HEIGHT WINDOW_WIDTH) as img.
  induction (seqZ 0 NUMBER_OF_BINS) as [|bin bins IH]; intros img.
  - exists img. reflexivity.
  - cbn [foldlM]. unfold binHeight at 1.
    destruct (Z.eqb_spec (hist_max (tally image)) 0); [contradiction|].
    simpl. apply IH.
Qed.

(** C4, at the image without pixels.  The largest bin is zero, every
    bin is zero, and [plotHistogram] divides zero by zero: it yields no
    plot, where the claim asks for the plot without bars. *)
Theorem plotHistogram_empty_image :
  hist_max (tally empty_image) = 0
  /\ Forall (fun binValue => binValue = 0) (tally empty_image)
  /\ binHeight 0 (hist_max (tally empty_image)) = None
  /\ plotHistogram empty_image = None.
Proof.
  split; [reflexivity|].
  split; [apply Forall_replicate; reflexivity|].
  split; [reflexivity|].
  apply plotHistogram_zero_max. reflexivity.
Qed.

(** ** computeForegroundImages *)

Section ForegroundProperties.
Variable MOG2 : Type.
Variable create : MOG2.
Variable apply_frame : MOG2 -> Mat uchar -> MOG2 * Mat uchar.

Local Abbreviation body := (fg_body MOG2 apply_frame).
Local Abbreviation outputs := (frame_outputs MOG2 apply_frame).

Lemma frame_outputs_length model fg images :
  length (outputs model fg images) = length images.
Proof.
  revert model fg. induction images as [|image rest IH]; intros model fg; [reflexivity|].
  simpl. destruct (fg_frame MOG2 apply_frame model fg image) as [model' fg'].
  simpl. rewrite IH. reflexivity.
Qed.

(** The loop from any state: the frames kept are the outputs of the
    remaining frames, but for the very first frame of the run. *)
Lemma fg_loop_outputs (images : list (Mat uchar)) (s : FgState MOG2) :
  0 <= counter MOG2 s ->
  foregroundImages MOG2 (foldl body s images)
  = foregroundImages MOG2 s
    ++ drop (Z.to_nat (1 - counter MOG2 s))
            (outputs (pMOG2 MOG2 s) (foregroundImage MOG2 s) images).
Proof.
  revert s. induction images as [|image rest IH]; intros s Hc.
  - simpl. rewrite drop_nil, app_nil_r. reflexivity.
  - simpl. unfold fg_body at 2.
    destruct (fg_frame MOG2 apply_frame (pMOG2 MOG2 s) (foregroundImage MOG2 s) image)
      as [model' fg'].
    destruct (Z.ltb_spec 1 (counter MOG2 s + 1)) as [Hlt|Hge].
    + rewrite IH by (simpl; lia). simpl.
      replace (Z.to_nat (1 - (counter MOG2 s + 1))) with 0%nat by lia.
      replace (Z.to_nat (1 - counter MOG2 s)) with 0%nat by lia.
      simpl. rewrite <- app_assoc. reflexivity.
    + rewrite IH by (simpl; lia). simpl.
      replace (Z.to_nat (1 - (counter MOG2 s + 1))) with 0%nat by lia.
      replace (Z.to_nat (1 - counter MOG2 s)) with 1%nat by lia.
      reflexivity.
Qed.
End ForegroundProperties.

(** C6.  Whatever the background estimator, [computeForegroundImages]
    on N frames returns the outputs of the frames after the first, in
    order: the output of the first frame is dropped although the frame
    went through the estimator.  The result has N - 1 frames when there
    is a frame at all, and it is empty for the empty sequence. *)
Theorem computeForegroundImages_skips_first
        (MOG2 : Type) (create : MOG2) (apply_frame : MOG2 -> Mat uchar -> MOG2 * Mat uchar)
        (images : list (Mat uchar)) :
  computeForegroundImages MOG2 create apply_frame images
  = tail (frame_outputs MOG2 apply_frame create empty_image images)
  /\ length (computeForegroundImages MOG2 create apply_frame images)
     = (length images - 1)%nat
  /\ (images <> [] ->
      Z.of_nat (length (computeForegroundImages MOG2 create apply_frame images))
      = Z.of_nat (length images) - 1)
  /\ computeForegroundImages MOG2 create apply_frame [] = [].
Proof.
  assert (computeForegroundImages MOG2 create apply_frame images
          = tail (frame_outputs MOG2 apply_frame create empty_image images)) as Heq.
  { unfold computeForegroundImages.
    rewrite (fg_loop_outputs MOG2 apply_frame images (fg_init MOG2 create)) by (simpl; lia).
    simpl. destruct (frame_outputs _ _ _ _ images); reflexivity. }
  assert (length (computeForegroundImages MOG2 create apply_frame images)
          = (length images - 1)%nat) as Hlen.
  { rewrite Heq. rewrite <- (frame_outputs_length MOG2 apply_frame create empty_image images).
    destruct (frame_outputs _ _ _ _ images); simpl; lia. }
  split; [exact Heq|]. split; [exact Hlen|]. split; [|reflexivity].
  intros Hne. rewrite Hlen. destruct images; [contradiction|]. simpl. lia.
Qed.

(** The theorem at three frames and the counting estimator. *)
Lemma computeForegroundImages_skips_first_witness :
  computeForegroundImages Z 0 counting_apply three_frames
  = tail (frame_outputs Z counting_apply 0 empty_image three_frames)
  /\ length (computeForegroundImages Z 0 counting_apply three_frames)
     = (length three_frames - 1)%nat
  /\ (three_frames <> [] ->
      Z.of_nat (length (computeForegroundImages Z 0 counting_apply three_frames))
      = Z.of_nat (length three_frames) - 1)
  /\ computeForegroundImages Z 0 counting_apply [] = [].
Proof.
  apply (computeForegroundImages_skips_first Z 0 counting_apply three_frames).
Defined.

Example computeForegroundImages_three_frames :
  computeForegroundImages Z 0 counting_apply three_frames
  = [mkMatRaw 1 2 [x03; x04]; mkMatRaw 1 2 [x05; x06]].
Proof. vm_compute. reflexivity. Qed.

(** ** computeGradientImage *)

Lemma computeGradientImage_size (image : Mat uchar) :
  rows (computeGradientImage image) = rows image
  /\ cols (computeGradientImage image) = cols image.
Proof. split; reflexivity. Qed.

(** What the code computes at a pixel: the two responses are clamped
    to a byte as they leave [Sobel], so that a negative response counts
    as zero, and [convertScaleAbs] changes nothing any more. *)
Lemma computeGradientImage_pixel (image : Mat uchar) (x y : Z) :
  0 <= x < cols image -> 0 <= y < rows image ->
  at_ (computeGradientImage image) x y
  = Some (u8 (round_half (zv (u8 (sobel_dx image x y)) + zv (u8 (sobel_dy image x y))))).
Proof.
  intros Hx Hy. unfold computeGradientImage, addWeighted_half, convertScaleAbs, Sobel_8U.
  rewrite !rows_mkMat, !cols_mkMat.
  rewrite at_mkMat by assumption.
  rewrite !pixel_mkMat by assumption.
  pose proof (zv_range (u8 (sobel_dx image x y))).
  pose proof (zv_range (u8 (sobel_dy image x y))).
  rewrite !Z.abs_eq by lia. rewrite !u8_zv. reflexivity.
Qed.

(** C8, at the falling edge.  At the centre pixel, whose 3x3
    neighbourhood is the whole image, the horizontal response is -1020
    and the vertical one 0.  The code stores the response as 0 and
    returns 0; the absolute value of the response, scaled to a byte and
    weighted by one half, is 128. *)
Theorem computeGradientImage_falling_edge :
  sobel_dx falling_edge 1 1 = -1020
  /\ sobel_dy falling_edge 1 1 = 0
  /\ at_ (computeGradientImage falling_edge) 1 1 = Some x00
  /\ gradientMagnitude_spec falling_edge 1 1 = x80
  /\ at_ (computeGradientImage falling_edge) 1 1
     <> Some (gradientMagnitude_spec falling_edge 1 1).
Proof.
  split; [reflexivity|]. split; [reflexivity|].
  split; [vm_compute; reflexivity|].
  split; [vm_compute; reflexivity|].
  vm_compute. discriminate.
Qed.

(** ** findLargestHorizontalLines *)

Lemma least_le (l : list Z) : least l <= 255 /\ forall v, v ∈ l -> least l <= v.
Proof.
  unfold least. induction l as [|a l [IH1 IH2]]; simpl.
  - split; [lia|]. intros v Hv. inversion Hv.
  - split; [lia|]. intros v Hv. apply elem_of_cons in Hv as [->|Hv]; [lia|].
    specialize (IH2 v Hv). lia.
Qed.

Lemma least_ge (l : list Z) (m : Z) :
  m <= 255 -> (forall v, v ∈ l -> m <= v) -> m <= least l.
Proof.
  intros Hm. unfold least. induction l as [|a l IH]; intros Hall; simpl; [exact Hm|].
  assert (m <= a) by (apply Hall; left).
  assert (m <= foldr Z.min 255 l) by (apply IH; intros v Hv; apply Hall; right; exact Hv).
  lia.
Qed.

Lemma greatest_ge (l : list Z) : 0 <= greatest l /\ forall v, v ∈ l -> v <= greatest l.
Proof.
  unfold greatest. induction l as [|a l [IH1 IH2]]; simpl.
  - split; [lia|]. intros v Hv. inversion Hv.
  - split; [lia|]. intros v Hv. apply elem_of_cons in Hv as [->|Hv]; [lia|].
    specialize (IH2 v Hv). lia.
Qed.

Lemma greatest_le (l : list Z) (m : Z) :
  0 <= m -> (forall v, v ∈ l -> v <= m) -> greatest l <= m.
Proof.
  intros Hm. unfold greatest. induction l as [|a l IH]; intros Hall; simpl; [exact Hm|].
  assert (a <= m) by (apply Hall; left).
  assert (foldr Z.max 0 l <= m) by (apply IH; intros v Hv; apply Hall; right; exact Hv).
  lia.
Qed.

Lemma elem_of_under_element (image : Mat uchar) (kw kh x y v : Z) :
  v ∈ under_element image kw kh x y
  <-> exists dx dy b, dx ∈ kernel_offsets kw /\ dy ∈ kernel_offsets kh
                      /\ at_ image (x + dx) (y + dy) = Some b /\ v = zv b.
Proof.
  unfold under_element. rewrite list_elem_of_bind. split.
  - intros (dy & Hv & Hdy). apply list_elem_of_bind in Hv as (dx & Hv & Hdx).
    destruct (at_ image (x + dx) (y + dy)) as [b|] eqn:Hb; [|inversion Hv].
    apply list_elem_of_singleton in Hv. exists dx, dy, b. tauto.
  - intros (dx & dy & b & Hdx & Hdy & Hb & ->).
    exists dy. split; [|exact Hdy].
    apply list_elem_of_bind. exists dx. split; [|exact Hdx].
    rewrite Hb. apply list_elem_of_singleton. reflexivity.
Qed.

Lemma under_element_range (image : Mat uchar) (kw kh x y v : Z) :
  v ∈ under_element image kw kh x y -> 0 <= v <= 255.
Proof.
  intros H. apply elem_of_under_element in H as (dx & dy & b & _ & _ & _ & ->).
  apply zv_range.
Qed.

Lemma least_under_element_range (image : Mat uchar) (kw kh x y : Z) :
  0 <= least (under_element image kw kh x y) <= 255.
Proof.
  pose proof (least_le (under_element image kw kh x y)) as [Hle _].
  split; [|exact Hle].
  apply least_ge; [lia|]. intros v Hv. apply under_element_range in Hv. lia.
Qed.

Lemma greatest_under_element_range (image : Mat uchar) (kw kh x y : Z) :
  0 <= greatest (under_element image kw kh x y) <= 255.
Proof.
  pose proof (greatest_ge (under_element image kw kh x y)) as [Hge _].
  split; [exact Hge|].
  apply greatest_le; [lia|]. intros v Hv. apply under_element_range in Hv. lia.
Qed.

(** An element of odd length is symmetric about its anchor. *)
Lemma kernel_offsets_symmetric (k d : Z) :
  Z.odd k = true -> d ∈ kernel_offsets k -> - d ∈ kernel_offsets k.
Proof.
  intros Hodd Hd. unfold kernel_offsets in *.
  apply elem_of_seqZ in Hd. apply elem_of_seqZ.
  apply Z.odd_spec in Hodd as [h ->].
  destruct (Z.le_gt_cases 0 h).
  - replace ((2 * h + 1) ÷ 2) with h in *
      by (rewrite Z.quot_div_nonneg by lia; apply Z.div_unique with 1; lia).
    lia.
  - lia.
Qed.

Lemma at_erode (image : Mat uchar) (kw kh x y : Z) :
  0 <= x < cols image -> 0 <= y < rows image ->
  at_ (erode image kw kh) x y = Some (u8 (least (under_element image kw kh x y))).
Proof. intros Hx Hy. unfold erode. rewrite at_mkMat by assumption. reflexivity. Qed.

Lemma at_dilate (image : Mat uchar) (kw kh x y : Z) :
  0 <= x < cols image -> 0 <= y < rows image ->
  at_ (dilate image kw kh) x y = Some (u8 (greatest (under_element image kw kh x y))).
Proof. intros Hx Hy. unfold dilate. rewrite at_mkMat by assumption. reflexivity. Qed.

Section Opening.
Variables kw kh : Z.
Hypothesis kw_odd : Z.odd kw = true.
Hypothesis kh_odd : Z.odd kh = true.

(** The sample at the place of the element is among those under the
    element placed at any of the cells it covers. *)
Lemma under_element_back (image : Mat uchar) (x y dx dy : Z) (b : uchar) :
  dx ∈ kernel_offsets kw -> dy ∈ kernel_offsets kh ->
  at_ image x y = Some b ->
  zv b ∈ under_element image kw kh (x + dx) (y + dy).
Proof.
  intros Hdx Hdy Hb. apply elem_of_under_element.
  exists (- dx), (- dy), b.
  split; [apply kernel_offsets_symmetric; assumption|].
  split; [apply kernel_offsets_symmetric; assumption|].
  split; [|reflexivity].
  replace (x + dx + - dx) with x by lia. replace (y + dy + - dy) with y by lia.
  exact Hb.
Qed.

(** Dilating the erosion never exceeds the image. *)
Lemma dilate_erode_below (image : Mat uchar) (x y : Z) (b : uchar) :
  at_ image x y = Some b ->
  greatest (under_element (erode image kw kh) kw kh x y) <= zv b.
Proof.
  intros Hb. apply greatest_le; [apply zv_range|].
  intros v Hv. apply elem_of_under_element in Hv as (dx & dy & b' & Hdx & Hdy & Hb' & ->).
  pose proof (at_Some_in_range _ _ _ _ Hb') as [Hx Hy].
  rewrite at_erode in Hb' by assumption. injection Hb' as <-.
  rewrite zv_u8 by apply least_under_element_range.
  apply (least_le (under_element image kw kh (x + dx) (y + dy))).
  apply under_element_back; assumption.
Qed.

(** Eroding the dilation never falls below the image. *)
Lemma erode_dilate_above (image : Mat uchar) (x y : Z) (b : uchar) :
  at_ image x y = Some b ->
  zv b <= least (under_element (dilate image kw kh) kw kh x y).
Proof.
  intros Hb. apply least_ge; [apply zv_range|].
  intros v Hv. apply elem_of_under_element in Hv as (dx & dy & b' & Hdx & Hdy & Hb' & ->).
  pose proof (at_Some_in_range _ _ _ _ Hb') as [Hx Hy].
  rewrite at_dilate in Hb' by assumption. injection Hb' as <-.
  rewrite zv_u8 by apply greatest_under_element_range.
  apply (greatest_ge (under_element image kw kh (x + dx) (y + dy))).
  apply under_element_back; assumption.
Qed.

(** Erosion undoes what dilation added to an erosion. *)
Lemma erode_dilate_erode (image : Mat uchar) :
  erode (dilate (erode image kw kh) kw kh) kw kh = erode image kw kh.
Proof.
  change (mkMat (rows image) (cols image)
            (fun x y => u8 (least (under_element (dilate (erode image kw kh) kw kh) kw kh x y)))
          = mkMat (rows image) (cols image)
              (fun x y => u8 (least (under_element image kw kh x y)))).
  apply mkMat_ext. intros x y Hx Hy. f_equal.
  apply Z.le_antisymm.
  - pose proof (least_le (under_element (dilate (erode image kw kh) kw kh) kw kh x y))
      as [Htop Hlow].
    apply least_ge; [exact Htop|].
    intros v Hv. apply elem_of_under_element in Hv as (dx & dy & b & Hdx & Hdy & Hb & ->).
    pose proof (at_Some_in_range _ _ _ _ Hb) as [Hx' Hy'].
    transitivity (greatest (under_element (erode image kw kh) kw kh (x + dx) (y + dy)));
      [|apply dilate_erode_below; exact Hb].
    apply Hlow. apply elem_of_under_element.
    exists dx, dy, (u8 (greatest (under_element (erode image kw kh) kw kh (x + dx) (y + dy)))).
    split; [exact Hdx|]. split; [exact Hdy|].
    split; [apply at_dilate; assumption|].
    rewrite zv_u8 by apply greatest_under_element_range. reflexivity.
  - pose proof (erode_dilate_above (erode image kw kh) x y
                  (u8 (least (under_element image kw kh x y)))) as H.
    rewrite zv_u8 in H by apply least_under_element_range.
    apply H. apply at_erode; assumption.
Qed.

(** Opening with an element of odd width and odd height is idempotent. *)
Lemma morph_open_idempotent (image : Mat uchar) :
  morph_open (morph_open image kw kh) kw kh = morph_open image kw kh.
Proof. unfold morph_open. rewrite erode_dilate_erode. reflexivity. Qed.
End Opening.

(** C7, as the code has it.  On a well-formed image whose half width
    [width / 2], the length of the structuring element, is odd,
    [findLargestHorizontalLines] succeeds, and applying it to its own
    result gives that result again. *)
Theorem findLargestHorizontalLines_idempotent (image : Mat uchar) :
  wf image -> Z.odd (cols image / 2) = true ->
  exists once,
    findLargestHorizontalLines image = Some once
    /\ findLargestHorizontalLines once = Some once.
Proof.
  intros (_ & Hc & _) Hodd.
  assert (cols image ÷ 2 = cols image / 2) as Hq by (apply Z.quot_div_nonneg; lia).
  assert (0 < cols image / 2) as Hpos.
  { assert (0 <= cols image / 2) by (apply Z.div_pos; lia).
    destruct (decide (cols image / 2 = 0)) as [E|]; [rewrite E in Hodd; discriminate Hodd|lia]. }
  exists (morph_open image (cols image / 2) 1).
  unfold findLargestHorizontalLines.
  change (cols (morph_open image (cols image / 2) 1)) with (cols image).
  rewrite Hq.
  destruct (Z.leb_spec (cols image / 2) 0); [lia|].
  split; [reflexivity|].
  f_equal. apply morph_open_idempotent; [exact Hodd|reflexivity].
Qed.

(** The theorem at a row of six pixels, whose element has three cells. *)
Lemma findLargestHorizontalLines_idempotent_witness :
  exists once,
    findLargestHorizontalLines (mkMatRaw 1 6 [x00; xff; xff; xff; x07; x00]) = Some once
    /\ findLargestHorizontalLines once = Some once.
Proof.
  apply (findLargestHorizontalLines_idempotent (mkMatRaw 1 6 [x00; xff; xff; xff; x07; x00])).
  - unfold wf. simpl. lia.
  - reflexivity.
Defined.

(** C7, as stated, fails on the row 255, 255, 0, 0.  Its element has two
    cells, at -1 and 0 of the anchor: one opening gives 255, 255, 255, 0
    and a second one 255, 255, 255, 255. *)
Lemma findLargestHorizontalLines_not_idempotent :
  findLargestHorizontalLines half_lit_row = Some (mkMatRaw 1 4 [xff; xff; xff; x00])
  /\ findLargestHorizontalLines (mkMatRaw 1 4 [xff; xff; xff; x00])
     = Some (mkMatRaw 1 4 [xff; xff; xff; xff])
  /\ (findLargestHorizontalLines half_lit_row ≫= findLargestHorizontalLines)
     <> findLargestHorizontalLines half_lit_row.
Proof.
  split; [vm_compute; reflexivity|].
  split; [vm_compute; reflexivity|].
  vm_compute. discriminate.
Qed.

(** ** generateEnhancedCenterMask *)

Lemma foldr_min_le (d : Z) (l : list Z) :
  foldr Z.min d l <= d /\ forall v, v ∈ l -> foldr Z.min d l <= v.
Proof.
  induction l as [|a l [IH1 IH2]]; simpl.
  - split; [lia|]. intros v Hv. inversion Hv.
  - split; [lia|]. intros v Hv. apply elem_of_cons in Hv as [->|Hv]; [lia|].
    specialize (IH2 v Hv). lia.
Qed.

(** The nearest distance is the member of the list below all others. *)
Lemma nearest_unique (ds : list Z) (m : Z) :
  m ∈ ds -> (forall v, v ∈ ds -> m <= v) -> nearest ds = m.
Proof.
  intros Hin Hlow. destruct ds as [|d ds]; [inversion Hin|]. simpl.
  destruct (foldr_min_le d ds) as [Hd Hds].
  apply Z.le_antisymm.
  - apply elem_of_cons in Hin as [->|Hin]; [exact Hd|apply Hds; exact Hin].
  - assert (forall l, (forall v, v ∈ l -> m <= v) -> m <= d -> m <= foldr Z.min d l) as Hge.
    { clear. induction l as [|a l IH]; intros Hall Hmd; simpl; [exact Hmd|].
      assert (m <= a) by (apply Hall; left).
      assert (m <= foldr Z.min d l) by (apply IH; [intros v Hv; apply Hall; right; exact Hv|exact Hmd]).
      lia. }
    apply Hge; [intros v Hv; apply Hlow; right; exact Hv|apply Hlow; left].
Qed.

Lemma elem_of_positions {A} (m : Mat A) (p : Z * Z) :
  p ∈ positions m <-> 0 <= p.1 < cols m /\ 0 <= p.2 < rows m.
Proof.
  unfold positions. rewrite list_elem_of_bind. split.
  - intros (y & Hp & Hy). apply list_elem_of_bind in Hp as (x & Hp & Hx).
    apply list_elem_of_singleton in Hp as ->.
    apply elem_of_seqZ in Hx, Hy. simpl. lia.
  - intros [Hx Hy]. exists p.2. split; [|apply elem_of_seqZ; lia].
    apply list_elem_of_bind. exists p.1. split; [|apply elem_of_seqZ; lia].
    apply list_elem_of_singleton. destruct p; reflexivity.
Qed.

Lemma elem_of_zero_positions (m : Mat uchar) (p : Z * Z) :
  p ∈ zero_positions m
  <-> (0 <= p.1 < cols m /\ 0 <= p.2 < rows m) /\ pixel m p.1 p.2 = x00.
Proof.
  unfold zero_positions. rewrite list_elem_of_filter, elem_of_positions, nonzero_false. tauto.
Qed.

(** The members of a tabulated matrix are its entries. *)
Lemma elem_of_data_mkMat {A} (r c : Z) (f : Z -> Z -> A) (v : A) :
  v ∈ data (mkMat r c f) <-> exists x y, 0 <= x < c /\ 0 <= y < r /\ v = f x y.
Proof.
  split.
  - intros Hv. unfold mkMat in Hv. simpl in Hv.
    apply list_elem_of_fmap in Hv as (i & -> & Hi). apply elem_of_seqZ in Hi.
    assert (0 < c /\ 0 < r) as [Hc Hr] by nia.
    rewrite !Z.max_r in Hi by lia.
    exists (i mod c), (i / c).
    split; [apply Z.mod_pos_bound; lia|].
    split; [|reflexivity].
    split; [apply Z.div_pos; lia|apply Z.div_lt_upper_bound; lia].
  - intros (x & y & Hx & Hy & ->).
    pose proof (at_mkMat r c f x y Hx Hy) as Hat. unfold at_ in Hat.
    destruct (in_range (mkMat r c f) x y); [|discriminate Hat].
    apply list_elem_of_lookup_2 in Hat. exact Hat.
Qed.

(** [maxVal] is the member of the buffer above all others. *)
Lemma maxVal_unique (image : Mat Z) (m : Z) :
  m ∈ data image -> (forall v, v ∈ data image -> v <= m) -> maxVal image = m.
Proof.
  unfold maxVal. intros Hin Hup. destruct (data image) as [|d ds]; [inversion Hin|].
  assert (forall l a, a <= foldl Z.max a l /\ forall v, v ∈ l -> v <= foldl Z.max a l) as Hge.
  { clear. induction l as [|b l IH]; intros a; simpl.
    - split; [lia|]. intros v Hv. inversion Hv.
    - destruct (IH (Z.max a b)) as [H1 H2]. split; [lia|].
      intros v Hv. apply elem_of_cons in Hv as [->|Hv]; [lia|apply H2; exact Hv]. }
  assert (forall l a, a <= m -> (forall v, v ∈ l -> v <= m) -> foldl Z.max a l <= m) as Hle.
  { clear. induction l as [|b l IH]; intros a Ha Hall; simpl; [exact Ha|].
    apply IH; [|intros v Hv; apply Hall; right; exact Hv].
    assert (b <= m) by (apply Hall; left). lia. }
  apply Z.le_antisymm.
  - apply Hle; [apply Hup; left|intros v Hv; apply Hup; right; exact Hv].
  - destruct (Hge ds d) as [H1 H2].
    apply elem_of_cons in Hin as [->|Hin]; [exact H1|apply H2; exact Hin].
Qed.

Section CenterMask.
Variables pad width height : Z.
Hypothesis pad_pos : 1 <= pad.
Hypothesis width_pos : 0 < width.
Hypothesis height_pos : 0 < height.

Local Abbreviation padded := (padImage pad (ones height width)).

Lemma padded_size : rows padded = height + 2 * pad /\ cols padded = width + 2 * pad.
Proof. split; reflexivity. Qed.

Lemma padded_interior (x y : Z) :
  0 <= x < width -> 0 <= y < height -> pixel padded (x + pad) (y + pad) = x01.
Proof.
  intros Hx Hy. unfold padImage. rewrite pixel_mkMat by (simpl; lia).
  replace (x + pad - pad) with x by lia. replace (y + pad - pad) with y by lia.
  unfold ones. apply pixel_mkMat; assumption.
Qed.

Lemma padded_border (X Y : Z) :
  0 <= X < width + 2 * pad -> 0 <= Y < height + 2 * pad ->
  ~ (pad <= X < pad + width /\ pad <= Y < pad + height) ->
  pixel padded X Y = x00.
Proof.
  intros HX HY Hout. unfold padImage. rewrite pixel_mkMat by (simpl; lia).
  unfold pixel, ones. rewrite at_mkMat_out by lia. reflexivity.
Qed.

(** Inside the frame the nearest zero pixel lies just across the
    nearest side. *)
Lemma nearest_interior (x y : Z) :
  0 <= x < width -> 0 <= y < height ->
  nearest (chessboard (x + pad) (y + pad) <$> zero_positions padded)
  = depth width height x y.
Proof.
  intros Hx Hy. apply nearest_unique.
  - assert (exists p, p ∈ zero_positions padded
                      /\ depth width height x y = chessboard (x + pad) (y + pad) p)
      as (p & Hp & ->); [|apply list_elem_of_fmap_2; exact Hp].
    unfold depth, chessboard.
    destruct (Z.le_gt_cases (Z.min (x + 1) (width - x)) (Z.min (y + 1) (height - y))).
    + destruct (Z.le_gt_cases (x + 1) (width - x)).
      * exists (pad - 1, y + pad). split; [|simpl; lia].
        apply elem_of_zero_positions. simpl.
        split; [lia|]. apply padded_border; lia.
      * exists (pad + width, y + pad). split; [|simpl; lia].
        apply elem_of_zero_positions. simpl.
        split; [lia|]. apply padded_border; lia.
    + destruct (Z.le_gt_cases (y + 1) (height - y)).
      * exists (x + pad, pad - 1). split; [|simpl; lia].
        apply elem_of_zero_positions. simpl.
        split; [lia|]. apply padded_border; lia.
      * exists (x + pad, pad + height). split; [|simpl; lia].
        apply elem_of_zero_positions. simpl.
        split; [lia|]. apply padded_border; lia.
  - intros v Hv. apply list_elem_of_fmap in Hv as ([a b] & -> & Hp).
    apply elem_of_zero_positions in Hp as [[Ha Hb] Hzero]. simpl in Ha, Hb, Hzero.
    assert (~ (pad <= a < pad + width /\ pad <= b < pad + height)) as Hout.
    { intros [Ha' Hb'].
      pose proof (padded_interior (a - pad) (b - pad)) as Hone.
      replace (a - pad + pad) with a in Hone by lia.
      replace (b - pad + pad) with b in Hone by lia.
      rewrite Hone in Hzero by lia. discriminate Hzero. }
    unfold depth, chessboard. simpl. lia.
Qed.

(** On the synthetic border the distance is zero. *)
Lemma nearest_border (X Y : Z) :
  0 <= X < width + 2 * pad -> 0 <= Y < height + 2 * pad ->
  ~ (pad <= X < pad + width /\ pad <= Y < pad + height) ->
  nearest (chessboard X Y <$> zero_positions padded) = 0.
Proof.
  intros HX HY Hout. apply nearest_unique.
  - apply (list_elem_of_fmap_2' _ _ (X, Y)).
    + apply elem_of_zero_positions. simpl. split; [lia|]. apply padded_border; assumption.
    + unfold chessboard. simpl. lia.
  - intros v Hv. apply list_elem_of_fmap in Hv as (p & -> & _).
    unfold chessboard. lia.
Qed.

(** The largest distance is the depth of the centre. *)
Lemma depth_center_max (x y : Z) :
  0 <= x < width -> 0 <= y < height ->
  depth width height x y <= depth width height (width / 2) (height / 2).
Proof.
  intros Hx Hy. unfold depth.
  pose proof (Z.div_mod width 2). pose proof (Z.mod_pos_bound width 2).
  pose proof (Z.div_mod height 2). pose proof (Z.mod_pos_bound height 2).
  lia.
Qed.

Lemma depth_center_pos : 0 < depth width height (width / 2) (height / 2).
Proof.
  unfold depth.
  pose proof (Z.div_mod width 2). pose proof (Z.mod_pos_bound width 2).
  pose proof (Z.div_mod height 2). pose proof (Z.mod_pos_bound height 2).
  lia.
Qed.

Lemma center_in_range : 0 <= width / 2 < width /\ 0 <= height / 2 < height.
Proof.
  pose proof (Z.div_mod width 2). pose proof (Z.mod_pos_bound width 2).
  pose proof (Z.div_mod height 2). pose proof (Z.mod_pos_bound height 2).
  lia.
Qed.

Lemma maxVal_distance :
  maxVal (distanceTransform padded) = depth width height (width / 2) (height / 2).
Proof.
  destruct center_in_range as [Hcx Hcy].
  apply maxVal_unique; unfold distanceTransform.
  - apply elem_of_data_mkMat. exists (width / 2 + pad), (height / 2 + pad).
    split; [simpl; lia|]. split; [simpl; lia|].
    symmetry. apply nearest_interior; assumption.
  - intros v Hv. apply elem_of_data_mkMat in Hv as (X & Y & HX & HY & ->).
    simpl in HX, HY.
    destruct (decide (pad <= X < pad + width /\ pad <= Y < pad + height)) as [[HX' HY']|Hout].
    + pose proof (nearest_interior (X - pad) (Y - pad)) as Hd.
      replace (X - pad + pad) with X in Hd by lia.
      replace (Y - pad + pad) with Y in Hd by lia.
      rewrite Hd by lia. apply depth_center_max; lia.
    + rewrite nearest_border by (assumption || lia).
      pose proof depth_center_pos. lia.
Qed.

(** The mask, entry by entry: the depth of the pixel over the depth of
    the centre. *)
Lemma generateEnhancedCenterMask_entries :
  exists mask,
    generateEnhancedCenterMask pad width height = Some mask
    /\ rows mask = height /\ cols mask = width
    /\ forall x y, 0 <= x < width -> 0 <= y < height ->
         mask_at mask x y
         = (inject_Z (depth width height x y)
            * / inject_Z (depth width height (width / 2) (height / 2)))%Q.
Proof.
  unfold generateEnhancedCenterMask, scale_by_inverse.
  rewrite maxVal_distance.
  pose proof depth_center_pos as Hpos.
  destruct (Z.leb_spec (depth width height (width / 2) (height / 2)) 0); [lia|].
  eexists. split; [reflexivity|].
  split; [simpl; lia|]. split; [simpl; lia|].
  intros x y Hx Hy. unfold mask_at, removePadding.
  rewrite at_mkMat by (simpl; lia). simpl.
  rewrite at_mkMat by (simpl; lia).
  unfold distanceTransform. rewrite at_mkMat by (simpl; lia). simpl.
  rewrite nearest_interior by assumption. reflexivity.
Qed.
End CenterMask.






(** * Further properties *)

(** ** computeGelLocation *)

(** X1.  The rectangle of an image with a non-zero pixel lies inside the
    image: its corner is a pixel position and so is the opposite
    corner [(x + width, y + height)]. *)
Theorem computeGelLocation_inside_image (image : Mat uchar) :
  wf image -> (exists x y, lit image x y) ->
  exists r,
    computeGelLocation image = Some r
    /\ 0 <= rect_x r /\ 0 <= rect_y r
    /\ 0 <= rect_width r /\ 0 <= rect_height r
    /\ rect_x r + rect_width r < cols image
    /\ rect_y r + rect_height r < rows image.
Proof.
  intros Hwf Hex.
  destruct (gel_scan_span image Hwf Hex)
    as (e & He & Hin & [yl Hl] & [yr Hr] & [xt Ht] & [xb Hb]).
  pose proof (Hin _ _ Hl). pose proof (Hin _ _ Ht).
  apply lit_in_range in Hl, Hr, Ht, Hb.
  eexists. split; [apply computeGelLocation_scan; exact He|].
  simpl. lia.
Qed.

Lemma computeGelLocation_inside_image_witness :
  exists r,
    computeGelLocation block_8x8 = Some r
    /\ 0 <= rect_x r /\ 0 <= rect_y r
    /\ 0 <= rect_width r /\ 0 <= rect_height r
    /\ rect_x r + rect_width r < cols block_8x8
    /\ rect_y r + rect_height r < rows block_8x8.
Proof.
  apply (computeGelLocation_inside_image block_8x8).
  - exact block_8x8_wf.
  - exact block_8x8_lit.
Defined.

(** Two scans over the same positions from the same start end alike as
    soon as the two images have the same non-zero pixels. *)
Lemma tracks_unique (image1 image2 : Mat uchar) (seen : Z -> Z -> Prop) e0 e1 e2 :
  (forall x y, lit image1 x y <-> lit image2 x y) ->
  tracks image1 seen e0 e1 -> tracks image2 seen e0 e2 -> e1 = e2.
Proof.
  intros Hsame (Hin1 & Hm1 & Hl1 & Hr1 & Ht1 & Hb1) (Hin2 & Hm2 & Hl2 & Hr2 & Ht2 & Hb2).
  assert (leftMost e1 = leftMost e2) as El.
  { destruct Hl1 as [E1|(y1 & Hs1 & H1)], Hl2 as [E2|(y2 & Hs2 & H2)].
    - congruence.
    - apply Hsame in H2. specialize (Hin1 _ _ Hs2 H2). lia.
    - apply Hsame in H1. specialize (Hin2 _ _ Hs1 H1). lia.
    - pose proof H1 as H1'. apply Hsame in H1'. apply Hsame in H2.
      specialize (Hin1 _ _ Hs2 H2). specialize (Hin2 _ _ Hs1 H1'). lia. }
  assert (rightMost e1 = rightMost e2) as Er.
  { destruct Hr1 as [E1|(y1 & Hs1 & H1)], Hr2 as [E2|(y2 & Hs2 & H2)].
    - congruence.
    - apply Hsame in H2. specialize (Hin1 _ _ Hs2 H2). lia.
    - apply Hsame in H1. specialize (Hin2 _ _ Hs1 H1). lia.
    - pose proof H1 as H1'. apply Hsame in H1'. apply Hsame in H2.
      specialize (Hin1 _ _ Hs2 H2). specialize (Hin2 _ _ Hs1 H1'). lia. }
  assert (topMost e1 = topMost e2) as Et.
  { destruct Ht1 as [E1|(x1 & Hs1 & H1)], Ht2 as [E2|(x2 & Hs2 & H2)].
    - congruence.
    - apply Hsame in H2. specialize (Hin1 _ _ Hs2 H2). lia.
    - apply Hsame in H1. specialize (Hin2 _ _ Hs1 H1). lia.
    - pose proof H1 as H1'. apply Hsame in H1'. apply Hsame in H2.
      specialize (Hin1 _ _ Hs2 H2). specialize (Hin2 _ _ Hs1 H1'). lia. }
  assert (bottomMost e1 = bottomMost e2) as Eb.
  { destruct Hb1 as [E1|(x1 & Hs1 & H1)], Hb2 as [E2|(x2 & Hs2 & H2)].
    - congruence.
    - apply Hsame in H2. specialize (Hin1 _ _ Hs2 H2). lia.
    - apply Hsame in H1. specialize (Hin2 _ _ Hs1 H1). lia.
    - pose proof H1 as H1'. apply Hsame in H1'. apply Hsame in H2.
      specialize (Hin1 _ _ Hs2 H2). specialize (Hin2 _ _ Hs1 H1'). lia. }
  destruct e1, e2. simpl in *. congruence.
Qed.

(** X2.  The rectangle depends only on the size of the image and on which
    of its pixels are non-zero, not on their values: two well-formed
    images of the same size with the same non-zero positions give the
    same rectangle. *)
Theorem computeGelLocation_support (image1 image2 : Mat uchar) :
  wf image1 -> wf image2 ->
  rows image1 = rows image2 -> cols image1 = cols image2 ->
  (forall x y, lit image1 x y <-> lit image2 x y) ->
  computeGelLocation image1 = computeGelLocation image2.
Proof.
  intros Hwf1 Hwf2 Hrows Hcols Hsame.
  destruct (gel_scan_tracks image1 Hwf1) as (e1 & He1 & Ht1).
  destruct (gel_scan_tracks image2 Hwf2) as (e2 & He2 & Ht2).
  rewrite (computeGelLocation_scan _ _ He1), (computeGelLocation_scan _ _ He2).
  rewrite Hrows, Hcols in Ht1.
  rewrite (tracks_unique image1 image2 _ _ e1 e2 Hsame Ht1 Ht2). reflexivity.
Qed.

Lemma computeGelLocation_support_witness :
  computeGelLocation (mkMatRaw 1 3 [x00; x07; xff])
  = computeGelLocation (mkMatRaw 1 3 [x00; xff; x01]).
Proof.
  apply computeGelLocation_support.
  - unfold wf. simpl. lia.
  - unfold wf. simpl. lia.
  - reflexivity.
  - reflexivity.
  - intros x y. split; intros (v & Hv & Hnz);
      pose proof (at_Some_in_range _ _ _ _ Hv) as [Hx Hy]; simpl in Hx, Hy;
      assert (y = 0) as Ey by lia; subst y;
      assert (x = 0 \/ x = 1 \/ x = 2) as Ex by lia;
      destruct Ex as [Ex|[Ex|Ex]]; subst x;
      vm_compute in Hv; injection Hv as <-; try discriminate Hnz;
      eexists; (split; [vm_compute; reflexivity|reflexivity]).
Defined.

(** X3.  On every well-formed image, also one without pixels, the scan reads
    only inside the buffer and a rectangle is returned. *)
Theorem computeGelLocation_returns (image : Mat uchar) :
  wf image -> exists r, computeGelLocation image = Some r.
Proof.
  intros Hwf. destruct (gel_scan_tracks image Hwf) as (e & He & _).
  eexists. apply computeGelLocation_scan. exact He.
Qed.

Lemma computeGelLocation_returns_witness :
  exists r, computeGelLocation empty_image = Some r.
Proof.
  apply (computeGelLocation_returns empty_image).
  unfold wf. simpl. lia.
Defined.

(** ** computeInnermostRectangle *)

(** The four bounds, each with the ray that produced it. *)
Lemma innermost_bounds (image : Mat uchar) :
  wf image -> 0 < rows image -> 0 < cols image ->
  exists l u r d,
    computeInnermostRectangle image = Some (mkRect l u (r - l) (d - u))
    /\ ray_decreasing (fun i => lit image (cols image / 2) i) (rows image / 2) u
    /\ ray_increasing (fun i => lit image (cols image / 2) i) (rows image / 2) (rows image) d
    /\ ray_decreasing (fun i => lit image i (rows image / 2)) (cols image / 2) l
    /\ ray_increasing (fun i => lit image i (rows image / 2)) (cols image / 2) (cols image) r.
Proof.
  intros Hwf Hrows Hcols.
  unfold computeInnermostRectangle.
  rewrite !Z.quot_div_nonneg by lia.
  set (cx := cols image / 2). set (cy := rows image / 2).
  assert (0 <= cx < cols image) as Hcx
      by (unfold cx; split; [apply Z.div_pos; lia|apply Z.div_lt_upper_bound; lia]).
  assert (0 <= cy < rows image) as Hcy
      by (unfold cy; split; [apply Z.div_pos; lia|apply Z.div_lt_upper_bound; lia]).
  destruct (first_nonzero_down (fun i => at_ image cx i) (Z.to_nat cy))
    as (fu & Hfu & Hu); [intros j Hj; apply at_wf; [exact Hwf|lia|lia]|].
  destruct (first_nonzero_up (fun i => at_ image cx i) (Z.to_nat (rows image - cy)) cy (rows image))
    as (fd & Hfd & Hd); [lia|intros j Hj; apply at_wf; [exact Hwf|lia|lia]|].
  destruct (first_nonzero_down (fun i => at_ image i cy) (Z.to_nat cx))
    as (fl & Hfl & Hl); [intros j Hj; apply at_wf; [exact Hwf|lia|lia]|].
  destruct (first_nonzero_up (fun i => at_ image i cy) (Z.to_nat (cols image - cx)) cx (cols image))
    as (fr & Hfr & Hr); [lia|intros j Hj; apply at_wf; [exact Hwf|lia|lia]|].
  rewrite Z2Nat.id in Hfu, Hu, Hfl, Hl by lia.
  rewrite Hfu, Hfd, Hfl, Hfr. simpl.
  exists (default 0 fl), (default 0 fu), (default (cols image) fr), (default (rows image) fd).
  split; [reflexivity|]. tauto.
Qed.

Lemma ray_decreasing_range (P : Z -> Prop) (start b : Z) :
  0 <= start -> ray_decreasing P start b -> 0 <= b <= start.
Proof. intros Hs [(Hb & _)|(-> & _)]; lia. Qed.

Lemma ray_increasing_range (P : Z -> Prop) (start limit b : Z) :
  start <= limit -> ray_increasing P start limit b -> start <= b <= limit.
Proof. intros Hs [(Hb & _)|(-> & _)]; lia. Qed.

(** A ray towards zero ends at the nearest position that satisfies [P]. *)
Lemma ray_decreasing_nearest (P : Z -> Prop) (start b n : Z) :
  ray_decreasing P start b ->
  0 <= n <= start -> P n -> (forall j, n < j <= start -> ~ P j) -> b = n.
Proof.
  intros [(Hb & Hhit & Hnone)|(_ & Hnone)] Hn Hp Hbefore.
  - destruct (Z.lt_trichotomy b n) as [Hlt|[Heq|Hgt]]; [|exact Heq|].
    + destruct (Hnone n); [lia|exact Hp].
    + destruct (Hbefore b); [lia|exact Hhit].
  - destruct (Hnone n); [lia|exact Hp].
Qed.

Lemma ray_increasing_nearest (P : Z -> Prop) (start limit b n : Z) :
  ray_increasing P start limit b ->
  start <= n < limit -> P n -> (forall j, start <= j < n -> ~ P j) -> b = n.
Proof.
  intros [(Hb & Hhit & Hnone)|(_ & Hnone)] Hn Hp Hbefore.
  - destruct (Z.lt_trichotomy b n) as [Hlt|[Heq|Hgt]]; [|exact Heq|].
    + destruct (Hbefore b); [lia|exact Hhit].
    + destruct (Hnone n); [lia|exact Hp].
  - destruct (Hnone n); [lia|exact Hp].
Qed.

(** X4.  On a well-formed image with at least one row and one column the
    rectangle never has a negative size, lies inside the image (its far
    sides may be the image sides [width] and [height]) and reaches the
    centre pixel on every side. *)
Theorem computeInnermostRectangle_inside_image (image : Mat uchar) :
  wf image -> 0 < rows image -> 0 < cols image ->
  exists r,
    computeInnermostRectangle image = Some r
    /\ 0 <= rect_x r <= cols image / 2
    /\ 0 <= rect_y r <= rows image / 2
    /\ cols image / 2 <= rect_x r + rect_width r <= cols image
    /\ rows image / 2 <= rect_y r + rect_height r <= rows image
    /\ 0 <= rect_width r /\ 0 <= rect_height r.
Proof.
  intros Hwf Hrows Hcols.
  destruct (innermost_bounds image Hwf Hrows Hcols) as (l & u & r & d & Hres & Hu & Hd & Hl & Hr).
  assert (0 <= cols image / 2 < cols image)
    by (split; [apply Z.div_pos; lia|apply Z.div_lt_upper_bound; lia]).
  assert (0 <= rows image / 2 < rows image)
    by (split; [apply Z.div_pos; lia|apply Z.div_lt_upper_bound; lia]).
  apply ray_decreasing_range in Hu, Hl; try lia.
  apply ray_increasing_range in Hd, Hr; try lia.
  eexists. split; [exact Hres|]. simpl. lia.
Qed.

Lemma computeInnermostRectangle_inside_image_witness :
  exists r,
    computeInnermostRectangle hollow_frame = Some r
    /\ 0 <= rect_x r <= cols hollow_frame / 2
    /\ 0 <= rect_y r <= rows hollow_frame / 2
    /\ cols hollow_frame / 2 <= rect_x r + rect_width r <= cols hollow_frame
    /\ rows hollow_frame / 2 <= rect_y r + rect_height r <= rows hollow_frame
    /\ 0 <= rect_width r /\ 0 <= rect_height r.
Proof.
  apply (computeInnermostRectangle_inside_image hollow_frame).
  - apply wf_mkMat; lia.
  - reflexivity.
  - reflexivity.
Defined.

(** X5.  On an image without pixels the first loop already reads the pixel
    [(width / 2, height / 2)], which does not exist: no rectangle is
    returned. *)
Theorem computeInnermostRectangle_no_pixels (image : Mat uchar) :
  0 <= rows image -> 0 <= cols image -> rows image = 0 \/ cols image = 0 ->
  computeInnermostRectangle image = None.
Proof.
  intros Hr Hc Hempty. unfold computeInnermostRectangle.
  rewrite !Z.quot_div_nonneg by lia.
  assert (0 <= rows image / 2) as Hcy by (apply Z.div_pos; lia).
  destruct (down_to_zero_head (rows image / 2) Hcy) as [rest ->].
  assert (at_ image (cols image / 2) (rows image / 2) = None) as Hat.
  { unfold at_. destruct (in_range image (cols image / 2) (rows image / 2)) eqn:E; [|reflexivity].
    apply in_range_true in E. destruct Hempty as [E0|E0]; rewrite E0 in E; simpl in E; lia. }
  simpl. rewrite Hat. reflexivity.
Qed.

Lemma computeInnermostRectangle_no_pixels_witness :
  computeInnermostRectangle empty_image = None.
Proof.
  apply (computeInnermostRectangle_no_pixels empty_image); simpl; lia.
Defined.

(** X6.  The rectangle is fixed by the nearest non-zero pixels: if, scanning
    from the centre [(cx, cy)] and counting the centre itself, the first
    non-zero pixels of the centre row are at columns [L] (leftwards) and
    [R] (rightwards) and those of the centre column at rows [U]
    (upwards) and [D] (downwards), the result is
    [Rect(L, U, R - L, D - U)].  This is the case of a hollow frame
    around the centre. *)
Theorem computeInnermostRectangle_nearest (image : Mat uchar) (L U R D : Z) :
  wf image ->
  0 <= L <= cols image / 2 -> cols image / 2 <= R < cols image ->
  0 <= U <= rows image / 2 -> rows image / 2 <= D < rows image ->
  lit image L (rows image / 2) -> lit image R (rows image / 2) ->
  lit image (cols image / 2) U -> lit image (cols image / 2) D ->
  (forall j, L < j <= cols image / 2 -> ~ lit image j (rows image / 2)) ->
  (forall j, cols image / 2 <= j < R -> ~ lit image j (rows image / 2)) ->
  (forall j, U < j <= rows image / 2 -> ~ lit image (cols image / 2) j) ->
  (forall j, rows image / 2 <= j < D -> ~ lit image (cols image / 2) j) ->
  computeInnermostRectangle image = Some (mkRect L U (R - L) (D - U)).
Proof.
  intros Hwf HL HR HU HD HlitL HlitR HlitU HlitD HrowL HrowR HcolU HcolD.
  destruct (innermost_bounds image Hwf) as (l & u & r & d & Hres & Hu & Hd & Hl & Hr); [lia|lia|].
  rewrite Hres.
  rewrite (ray_decreasing_nearest _ _ _ L Hl HL HlitL HrowL).
  rewrite (ray_increasing_nearest _ _ _ _ R Hr HR HlitR HrowR).
  rewrite (ray_decreasing_nearest _ _ _ U Hu HU HlitU HcolU).
  rewrite (ray_increasing_nearest _ _ _ _ D Hd HD HlitD HcolD).
  reflexivity.
Qed.

Lemma hollow_frame_lit (x y : Z) :
  lit hollow_frame x y
  <-> (1 <= x <= 5 /\ (y = 1 \/ y = 5)) \/ (1 <= y <= 5 /\ (x = 1 \/ x = 5)).
Proof.
  split.
  - intros (v & Hv & Hnz).
    pose proof (at_Some_in_range _ _ _ _ Hv) as [Hx Hy]. simpl in Hx, Hy.
    unfold hollow_frame in Hv. rewrite at_mkMat in Hv by assumption.
    injection Hv as <-.
    destruct (_ || _) eqn:E in Hnz; [|discriminate Hnz].
    clear Hnz. rewrite orb_true_iff, !andb_true_iff, !orb_true_iff in E. lia.
  - intros H. exists xff. split; [|reflexivity].
    unfold hollow_frame. rewrite at_mkMat by lia. 
    destruct (_ || _) eqn:E; [reflexivity|].
    rewrite orb_false_iff, !andb_false_iff, !orb_false_iff in E. lia.
Qed.

Lemma computeInnermostRectangle_nearest_witness :
  computeInnermostRectangle hollow_frame = Some (mkRect 1 1 (5 - 1) (5 - 1)).
Proof.
  apply (computeInnermostRectangle_nearest hollow_frame 1 1 5 5);
    try (apply wf_mkMat; lia);
    try (change (cols hollow_frame / 2) with 3; change (rows hollow_frame / 2) with 3;
         simpl; lia);
    change (cols hollow_frame / 2) with 3; change (rows hollow_frame / 2) with 3;
    try (apply hollow_frame_lit; lia);
    intros j Hj Hlit; apply hollow_frame_lit in Hlit; lia.
Defined.

Lemma ray_decreasing_hit (P : Z -> Prop) (start b : Z) :
  ray_decreasing P start b -> (exists j, 0 <= j <= start /\ P j) -> P b.
Proof.
  intros [(_ & Hhit & _)|(_ & Hnone)] (j & Hj & Hp); [exact Hhit|].
  destruct (Hnone j Hj Hp).
Qed.

Lemma ray_increasing_hit (P : Z -> Prop) (start limit b : Z) :
  ray_increasing P start limit b -> (exists j, start <= j < limit /\ P j) -> P b.
Proof.
  intros [(_ & Hhit & _)|(_ & Hnone)] (j & Hj & Hp); [exact Hhit|].
  destruct (Hnone j Hj Hp).
Qed.

(** X7.  When each of the four rays from the centre meets a non-zero pixel,
    the rectangle of [computeInnermostRectangle] lies inside the
    rectangle of [computeGelLocation]. *)
Theorem computeInnermostRectangle_inside_gel (image : Mat uchar) :
  wf image ->
  (exists j, 0 <= j <= rows image / 2 /\ lit image (cols image / 2) j) ->
  (exists j, rows image / 2 <= j < rows image /\ lit image (cols image / 2) j) ->
  (exists i, 0 <= i <= cols image / 2 /\ lit image i (rows image / 2)) ->
  (exists i, cols image / 2 <= i < cols image /\ lit image i (rows image / 2)) ->
  exists g r,
    computeGelLocation image = Some g
    /\ computeInnermostRectangle image = Some r
    /\ rect_x g <= rect_x r /\ rect_y g <= rect_y r
    /\ rect_x r + rect_width r <= rect_x g + rect_width g
    /\ rect_y r + rect_height r <= rect_y g + rect_height g.
Proof.
  intros Hwf Hup Hdown Hleft Hright.
  assert (exists x y, lit image x y) as Hex
      by (destruct Hup as (j & _ & H); eauto).
  destruct Hex as (x0 & y0 & Hlit0).
  pose proof (lit_in_range _ _ _ Hlit0) as [Hx0 Hy0].
  destruct (gel_scan_span image Hwf) as (e & He & Hin & _); [eauto|].
  destruct (innermost_bounds image Hwf) as (l & u & r & d & Hres & Hu & Hd & Hl & Hr); [lia|lia|].
  pose proof (Hin _ _ (ray_decreasing_hit _ _ _ Hu Hup)).
  pose proof (Hin _ _ (ray_increasing_hit _ _ _ _ Hd Hdown)).
  pose proof (Hin _ _ (ray_decreasing_hit _ _ _ Hl Hleft)).
  pose proof (Hin _ _ (ray_increasing_hit _ _ _ _ Hr Hright)).
  eexists. eexists.
  split; [apply computeGelLocation_scan; exact He|].
  split; [exact Hres|]. simpl. lia.
Qed.

Lemma computeInnermostRectangle_inside_gel_witness :
  exists g r,
    computeGelLocation hollow_frame = Some g
    /\ computeInnermostRectangle hollow_frame = Some r
    /\ rect_x g <= rect_x r /\ rect_y g <= rect_y r
    /\ rect_x r + rect_width r <= rect_x g + rect_width g
    /\ rect_y r + rect_height r <= rect_y g + rect_height g.
Proof.
  apply (computeInnermostRectangle_inside_gel hollow_frame);
    change (cols hollow_frame / 2) with 3; change (rows hollow_frame / 2) with 3;
    change (cols hollow_frame) with 7; change (rows hollow_frame) with 7.
  - apply wf_mkMat; lia.
  - exists 1. split; [lia|]. apply hollow_frame_lit. lia.
  - exists 5. split; [lia|]. apply hollow_frame_lit. lia.
  - exists 1. split; [lia|]. apply hollow_frame_lit. lia.
  - exists 5. split; [lia|]. apply hollow_frame_lit. lia.
Defined.

(** ** plotHistogram *)

Lemma to_nat_eq (p v : uchar) : Byte.to_nat p = Byte.to_nat v <-> p = v.
Proof.
  split; [|intros ->; reflexivity].
  intros H. pose proof (Byte.of_to_nat p) as Hp. rewrite H, Byte.of_to_nat in Hp.
  congruence.
Qed.

Lemma byte_eqb_eq (p v : uchar) : Byte.eqb p v = true <-> p = v.
Proof. split; [apply Byte.byte_dec_bl|apply Byte.byte_dec_lb]. Qed.

(** The bin of [v] grows by the number of pixels equal to [v]. *)
Lemma tally_loop_counts (pixels : list uchar) (hist : list Z) (v : uchar) (c : Z) :
  hist !! Byte.to_nat v = Some c ->
  c + Z.of_nat (length pixels) <= 2 ^ 53 ->
  foldl (fun hist p => alter double_incr (Byte.to_nat p) hist) hist pixels !! Byte.to_nat v
  = Some (c + count_value v pixels).
Proof.
  revert hist c. induction pixels as [|p pixels IH]; intros hist c Hc Hbound.
  - simpl. rewrite Hc. unfold count_value. simpl. apply f_equal. lia.
  - cbn [foldl]. unfold count_value. rewrite filter_cons.
    destruct (decide (Byte.eqb p v = true)) as [E|E].
    + apply byte_eqb_eq in E. subst p.
      rewrite (IH _ (double_incr c)).
      * unfold double_incr, count_value. simpl length in *.
        destruct (Z.ltb_spec c (2 ^ 53)); [apply f_equal|lia].
        unfold uchar. lia.
      * rewrite list_lookup_alter_eq, Hc. reflexivity.
      * unfold double_incr. simpl length in Hbound.
        destruct (Z.ltb_spec c (2 ^ 53)); lia.
    + rewrite (IH _ c).
      * reflexivity.
      * rewrite list_lookup_alter_ne; [exact Hc|].
        intros Hn. apply to_nat_eq in Hn. apply E. apply byte_eqb_eq. exact Hn.
      * simpl length in Hbound. lia.
Qed.

(** X8.  Every bin holds the number of pixels of its intensity, for an image
    of at most 2^53 pixels. *)
Theorem tally_counts (image : Mat uchar) (v : uchar) :
  Z.of_nat (length (data image)) <= 2 ^ 53 ->
  tally image !! Byte.to_nat v = Some (count_value v (data image)).
Proof.
  intros Hbound. unfold tally.
  rewrite (tally_loop_counts (data image) _ v 0).
  - f_equal.
  - apply lookup_replicate_2. pose proof (Byte.to_nat_bounded v).
    change (Z.to_nat NUMBER_OF_BINS) with 256%nat. lia.
  - lia.
Qed.

Lemma tally_counts_witness :
  tally (mkMatRaw 2 3 [x01; x00; xff; x01; x01; x07]) !! Byte.to_nat x01
  = Some (count_value x01 (data (mkMatRaw 2 3 [x01; x00; xff; x01; x01; x07]))).
Proof.
  apply (tally_counts (mkMatRaw 2 3 [x01; x00; xff; x01; x01; x07]) x01).
  simpl. lia.
Defined.

(** The drawing loop from any bin onwards: every column from [start] on
    gets its bar, the other pixels stay. *)
Lemma plot_loop (hist : list Z) (max : Z) (n : nat) :
  max <> 0 ->
  forall (start : Z) (img : Mat uchar),
    rows img = WINDOW_HEIGHT -> cols img = WINDOW_WIDTH ->
    (forall x y, 0 <= x < WINDOW_WIDTH -> 0 <= y < WINDOW_HEIGHT ->
       exists v, at_ img x y = Some v) ->
    exists img',
      foldlM (fun img bin =>
                h ← binHeight (default 0 (hist !! Z.to_nat bin)) max;
                Some (line_vertical img bin (WINDOW_HEIGHT - h) WINDOW_HEIGHT))
             img (seqZ start (Z.of_nat n)) = Some img'
      /\ rows img' = WINDOW_HEIGHT /\ cols img' = WINDOW_WIDTH
      /\ forall x y, 0 <= x < WINDOW_WIDTH -> 0 <= y < WINDOW_HEIGHT ->
           at_ img' x y
           = Some (if (start <=? x) && (x <? start + Z.of_nat n)
                      && (WINDOW_HEIGHT - bar hist max x <=? y)
                   then xff else pixel img x y).
Proof.
  intros Hmax. induction n as [|n IH]; intros start img Hrows Hcols Hread.
  - exists img. rewrite seqZ_nil by lia. split; [reflexivity|].
    split; [exact Hrows|]. split; [exact Hcols|].
    intros x y Hx Hy.
    replace ((start <=? x) && (x <? start + Z.of_nat 0)) with false
      by (symmetry; apply andb_false_iff; rewrite Z.leb_gt, Z.ltb_ge; lia).
    simpl. unfold pixel. destruct (Hread x y Hx Hy) as [v ->]. reflexivity.
  - rewrite seqZ_cons by lia. cbn [foldlM].
    unfold binHeight at 1. destruct (Z.eqb_spec max 0) as [|_]; [contradiction|].
    simpl mbind.
    set (img1 := line_vertical img start
                   (WINDOW_HEIGHT - (default 0 (hist !! Z.to_nat start) * WINDOW_HEIGHT) ÷ max)
                   WINDOW_HEIGHT).
    assert (forall x y, 0 <= x < WINDOW_WIDTH -> 0 <= y < WINDOW_HEIGHT ->
              at_ img1 x y
              = Some (if (x =? start) && (WINDOW_HEIGHT - bar hist max start <=? y)
                         && (y <=? WINDOW_HEIGHT)
                      then xff else pixel img x y)) as Hat1.
    { intros x y Hx Hy. unfold img1, line_vertical.
      rewrite at_mkMat by (rewrite ?Hrows, ?Hcols; assumption). reflexivity. }
    destruct (IH (Z.succ start) img1) as (img' & Hloop & Hrows' & Hcols' & Hat').
    + exact Hrows.
    + exact Hcols.
    + intros x y Hx Hy. rewrite Hat1 by assumption. eexists. reflexivity.
    + exists img'. replace (Z.pred (Z.of_nat (S n))) with (Z.of_nat n) by lia.
      split; [exact Hloop|]. split; [exact Hrows'|]. split; [exact Hcols'|].
      intros x y Hx Hy. rewrite Hat' by assumption. f_equal.
      unfold pixel at 1. rewrite Hat1 by assumption. simpl.
      destruct (Z.eqb_spec x start) as [->|Hne].
      * replace (Z.succ start <=? start) with false by (symmetry; apply Z.leb_gt; lia).
        replace (start <=? start) with true by (symmetry; apply Z.leb_le; lia).
        replace (start <? start + Z.of_nat (S n)) with true by (symmetry; apply Z.ltb_lt; lia).
        replace (y <=? WINDOW_HEIGHT) with true by (symmetry; apply Z.leb_le; lia).
        simpl. rewrite andb_true_r. reflexivity.
      * simpl.
        replace ((Z.succ start <=? x) && (x <? Z.succ start + Z.of_nat n))
          with ((start <=? x) && (x <? start + Z.of_nat (S n))); [reflexivity|].
        destruct (Z.leb_spec start x), (Z.leb_spec (Z.succ start) x),
                 (Z.ltb_spec x (start + Z.of_nat (S n))),
                 (Z.ltb_spec x (Z.succ start + Z.of_nat n)); simpl; try reflexivity; lia.
Qed.

Lemma tally_shape (image : Mat uchar) :
  length (tally image) = 256%nat /\ Forall (fun b => 0 <= b) (tally image).
Proof.
  unfold tally.
  assert (length (replicate (Z.to_nat NUMBER_OF_BINS) 0) = 256%nat
          /\ Forall (fun b => 0 <= b) (replicate (Z.to_nat NUMBER_OF_BINS) 0)) as Hinit
      by (split; [reflexivity|apply Forall_replicate; lia]).
  revert Hinit. generalize (replicate (Z.to_nat NUMBER_OF_BINS) 0).
  induction (data image) as [|p pixels IH]; intros hist [Hlen Hall]; [split; assumption|].
  cbn [foldl]. apply IH. split.
  - rewrite length_alter. exact Hlen.
  - apply Forall_alter; [exact Hall|].
    intros b Hb. rewrite Forall_lookup in Hall. specialize (Hall _ _ Hb).
    unfold double_incr. destruct (Z.ltb_spec b (2 ^ 53)); lia.
Qed.

Lemma hist_max_loop_in (hist : list Z) (m0 : Z) :
  let m := foldl (fun max binValue => if max <? binValue then binValue else max) m0 hist in
  m = m0 \/ m ∈ hist.
Proof.
  revert m0. induction hist as [|a hist IH]; intros m0; simpl; [left; reflexivity|].
  destruct (IH (if m0 <? a then a else m0)) as [E|Hin].
  - rewrite E. destruct (Z.ltb_spec m0 a); [right; left|left; reflexivity].
  - right. right. exact Hin.
Qed.

(** Every bin lies between zero and the largest bin. *)
Lemma tally_bin_range (image : Mat uchar) (x : Z) :
  0 <= default 0 (tally image !! Z.to_nat x) <= hist_max (tally image).
Proof.
  destruct (tally_shape image) as [_ Hall].
  pose proof (hist_max_loop_ge (tally image) 0) as [Hge Hle]. fold (hist_max (tally image)) in Hge, Hle.
  destruct (tally image !! Z.to_nat x) as [b|] eqn:E; simpl; [|lia].
  rewrite Forall_lookup in Hall. specialize (Hall _ _ E).
  apply list_elem_of_lookup_2 in E. specialize (Hle _ E). lia.
Qed.

(** The plot of an image with at least one pixel, pixel by pixel. *)
Lemma plotHistogram_plot (image : Mat uchar) :
  data image <> [] ->
  exists plot,
    plotHistogram image = Some plot
    /\ rows plot = WINDOW_HEIGHT /\ cols plot = WINDOW_WIDTH
    /\ forall x y, 0 <= x < WINDOW_WIDTH -> 0 <= y < WINDOW_HEIGHT ->
         at_ plot x y
         = Some (if WINDOW_HEIGHT - bar (tally image) (hist_max (tally image)) x <=? y
                 then xff else x00).
Proof.
  intros Hdata.
  assert (hist_max (tally image) <> 0) as Hmax
      by (intros H; apply hist_max_zero in H; contradiction).
  destruct (plot_loop (tally image) (hist_max (tally image)) 256 Hmax 0
                      (zeros WINDOW_HEIGHT WINDOW_WIDTH))
    as (plot & Hplot & Hrows & Hcols & Hat).
  - reflexivity.
  - reflexivity.
  - intros x y Hx Hy. unfold zeros. rewrite at_mkMat by assumption. eexists. reflexivity.
  - exists plot. split; [exact Hplot|]. split; [exact Hrows|]. split; [exact Hcols|].
    intros x y Hx Hy. rewrite Hat by assumption. rewrite pixel_zeros.
    unfold WINDOW_WIDTH, NUMBER_OF_BINS in Hx.
    replace (0 <=? x) with true by (symmetry; apply Z.leb_le; lia).
    replace (x <? 0 + Z.of_nat 256) with true by (symmetry; apply Z.ltb_lt; lia).
    reflexivity.
Qed.

(** X9.  For an image with at least one pixel the plot is 256 by 256, every
    bar height [bar = count * 256 / max] lies between 0 and 256, and
    column [x] is white exactly in its lowest [bar] rows and black
    above. *)
Theorem plotHistogram_bars (image : Mat uchar) :
  data image <> [] ->
  exists plot,
    plotHistogram image = Some plot
    /\ rows plot = 256 /\ cols plot = 256
    /\ forall x, 0 <= x < 256 ->
         0 <= bar (tally image) (hist_max (tally image)) x <= 256
         /\ forall y, 0 <= y < 256 ->
              at_ plot x y
              = Some (if 256 - bar (tally image) (hist_max (tally image)) x <=? y
                      then xff else x00).
Proof.
  intros Hdata.
  destruct (plotHistogram_plot image Hdata) as (plot & Hplot & Hrows & Hcols & Hat).
  exists plot. split; [exact Hplot|]. split; [exact Hrows|]. split; [exact Hcols|].
  intros x Hx. split; [|intros y Hy; apply Hat; assumption].
  pose proof (tally_bin_range image x) as Hbin.
  assert (hist_max (tally image) <> 0) as Hmax
      by (intros H; apply hist_max_zero in H; contradiction).
  unfold bar, WINDOW_HEIGHT, NUMBER_OF_BINS. split.
  - apply Z.quot_pos; lia.
  - apply Z.quot_le_upper_bound; nia.
Qed.

Lemma plotHistogram_bars_witness :
  exists plot,
    plotHistogram (mkMatRaw 1 3 [x01; x00; x01]) = Some plot
    /\ rows plot = 256 /\ cols plot = 256
    /\ forall x, 0 <= x < 256 ->
         0 <= bar (tally (mkMatRaw 1 3 [x01; x00; x01]))
                  (hist_max (tally (mkMatRaw 1 3 [x01; x00; x01]))) x <= 256
         /\ forall y, 0 <= y < 256 ->
              at_ plot x y
              = Some (if 256 - bar (tally (mkMatRaw 1 3 [x01; x00; x01]))
                                   (hist_max (tally (mkMatRaw 1 3 [x01; x00; x01]))) x <=? y
                      then xff else x00).
Proof.
  apply (plotHistogram_bars (mkMatRaw 1 3 [x01; x00; x01])).
  discriminate.
Defined.

(** X10.  In the plot of an image with at least one pixel, some bin equals
    the largest count; the column of every such bin is white from top
    to bottom, and the column of a bin that counts no pixel is black. *)
Theorem plotHistogram_full_and_empty_bars (image : Mat uchar) :
  data image <> [] ->
  exists plot,
    plotHistogram image = Some plot
    /\ (exists x, 0 <= x < 256 /\ tally image !! Z.to_nat x = Some (hist_max (tally image)))
    /\ (forall x y, 0 <= x < 256 -> 0 <= y < 256 ->
          tally image !! Z.to_nat x = Some (hist_max (tally image)) ->
          at_ plot x y = Some xff)
    /\ (forall x y, 0 <= x < 256 -> 0 <= y < 256 ->
          tally image !! Z.to_nat x = Some 0 ->
          at_ plot x y = Some x00).
Proof.
  intros Hdata.
  destruct (plotHistogram_plot image Hdata) as (plot & Hplot & _ & _ & Hat).
  assert (hist_max (tally image) <> 0) as Hmax
      by (intros H; apply hist_max_zero in H; contradiction).
  exists plot. split; [exact Hplot|]. split; [|split].
  - destruct (hist_max_loop_in (tally image) 0) as [E|Hin].
    + fold (hist_max (tally image)) in E. contradiction.
    + fold (hist_max (tally image)) in Hin.
      apply list_elem_of_lookup_1 in Hin as [i Hi].
      pose proof (lookup_lt_Some _ _ _ Hi) as Hlt.
      destruct (tally_shape image) as [Hlen _]. rewrite Hlen in Hlt.
      exists (Z.of_nat i). split; [lia|]. rewrite Nat2Z.id. exact Hi.
  - intros x y Hx Hy Hfull. rewrite Hat by assumption.
    unfold bar. rewrite Hfull. simpl default.
    rewrite Z.mul_comm, Z.quot_mul by exact Hmax.
    unfold WINDOW_HEIGHT, NUMBER_OF_BINS.
    replace (256 - 256 <=? y) with true by (symmetry; apply Z.leb_le; lia). reflexivity.
  - intros x y Hx Hy Hnone. rewrite Hat by assumption.
    unfold bar. rewrite Hnone. simpl default. rewrite Z.mul_0_l, Z.quot_0_l by exact Hmax.
    unfold WINDOW_HEIGHT, NUMBER_OF_BINS.
    replace (256 - 0 <=? y) with false by (symmetry; apply Z.leb_gt; lia). reflexivity.
Qed.

Lemma plotHistogram_full_and_empty_bars_witness :
  exists plot,
    plotHistogram (mkMatRaw 1 3 [x01; x00; x01]) = Some plot
    /\ (exists x, 0 <= x < 256
                  /\ tally (mkMatRaw 1 3 [x01; x00; x01]) !! Z.to_nat x
                     = Some (hist_max (tally (mkMatRaw 1 3 [x01; x00; x01]))))
    /\ (forall x y, 0 <= x < 256 -> 0 <= y < 256 ->
          tally (mkMatRaw 1 3 [x01; x00; x01]) !! Z.to_nat x
          = Some (hist_max (tally (mkMatRaw 1 3 [x01; x00; x01]))) ->
          at_ plot x y = Some xff)
    /\ (forall x y, 0 <= x < 256 -> 0 <= y < 256 ->
          tally (mkMatRaw 1 3 [x01; x00; x01]) !! Z.to_nat x = Some 0 ->
          at_ plot x y = Some x00).
Proof.
  apply (plotHistogram_full_and_empty_bars (mkMatRaw 1 3 [x01; x00; x01])).
  discriminate.
Defined.

(** ** computeForegroundImage and computeForegroundImages *)

Section ForegroundFrames.
Variable MOG2 : Type.
Variable create : MOG2.
Variable apply_frame : MOG2 -> Mat uchar -> MOG2 * Mat uchar.

(** One round of the loop body: whatever [foregroundImage] held, it now
    holds the frame under the mask, and the estimator has advanced. *)
Lemma fg_frame_masked (model : MOG2) (fg image : Mat uchar) :
  fg_frame MOG2 apply_frame model fg image
  = (fst (apply_frame model image), masked image (snd (apply_frame model image))).
Proof.
  unfold fg_frame. destruct (apply_frame model image) as [model' mask]. simpl.
  f_equal. unfold copyTo, masked, set_all_zero.
  apply mkMat_ext. intros x y _ _.
  rewrite pixel_zeros. destruct (nonzero (pixel mask x y)); [reflexivity|].
  destruct (_ && _); reflexivity.
Qed.

Lemma frame_outputs_masked (model : MOG2) (fg : Mat uchar) (images : list (Mat uchar)) :
  frame_outputs MOG2 apply_frame model fg images
  = zip_with masked images (foreground_masks MOG2 apply_frame model images).
Proof.
  revert model fg. induction images as [|image rest IH]; intros model fg; [reflexivity|].
  simpl. rewrite fg_frame_masked. simpl. rewrite IH. reflexivity.
Qed.

Lemma foreground_masks_length (model : MOG2) (images : list (Mat uchar)) :
  length (foreground_masks MOG2 apply_frame model images) = length images.
Proof.
  revert model. induction images as [|image rest IH]; intros model; [reflexivity|].
  simpl. rewrite IH. reflexivity.
Qed.

(** The single-image loop, from any state. *)
Lemma fg_single_loop (images : list (Mat uchar)) (model : MOG2) (fg : Mat uchar) :
  snd (foldl (fun s image => fg_frame MOG2 apply_frame (fst s) (snd s) image) (model, fg) images)
  = default fg (last (frame_outputs MOG2 apply_frame model fg images)).
Proof.
  revert model fg. induction images as [|image rest IH]; intros model fg; [reflexivity|].
  cbn [foldl frame_outputs]. simpl fst. simpl snd.
  destruct (fg_frame MOG2 apply_frame model fg image) as [model' fg'] eqn:E.
  rewrite IH, last_cons. destruct (last (frame_outputs MOG2 apply_frame model' fg' rest));
    reflexivity.
Qed.

(** The state of the sequence loop after any number of frames. *)
Lemma fg_loop_state (images : list (Mat uchar)) (s : FgState MOG2) :
  let s' := foldl (fg_body MOG2 apply_frame) s images in
  0 <= counter MOG2 s ->
  Z.of_nat (length (foregroundImages MOG2 s)) = Z.max 0 (counter MOG2 s - 1) ->
  written MOG2 s = zip (seqZ 2 (Z.of_nat (length (foregroundImages MOG2 s))))
                       (foregroundImages MOG2 s) ->
  counter MOG2 s' = counter MOG2 s + Z.of_nat (length images)
  /\ pMOG2 MOG2 s' = estimator_after MOG2 apply_frame (pMOG2 MOG2 s) images
  /\ Z.of_nat (length (foregroundImages MOG2 s')) = Z.max 0 (counter MOG2 s' - 1)
  /\ written MOG2 s' = zip (seqZ 2 (Z.of_nat (length (foregroundImages MOG2 s'))))
                           (foregroundImages MOG2 s').
Proof.
  revert s. induction images as [|image rest IH]; intros s s' Hc Hlen Hw.
  - subst s'. simpl. split; [lia|]. split; [reflexivity|]. split; assumption.
  - subst s'. cbn [foldl].
    set (s1 := fg_body MOG2 apply_frame s image).
    assert (counter MOG2 s1 = counter MOG2 s + 1
            /\ pMOG2 MOG2 s1 = fst (apply_frame (pMOG2 MOG2 s) image)
            /\ Z.of_nat (length (foregroundImages MOG2 s1)) = Z.max 0 (counter MOG2 s1 - 1)
            /\ written MOG2 s1 = zip (seqZ 2 (Z.of_nat (length (foregroundImages MOG2 s1))))
                                     (foregroundImages MOG2 s1)) as (Hc1 & Hm1 & Hlen1 & Hw1).
    { unfold s1, fg_body. rewrite fg_frame_masked.
      destruct (Z.ltb_spec 1 (counter MOG2 s + 1)); simpl.
      - split; [reflexivity|]. split; [reflexivity|].
        rewrite length_app. simpl length. split; [lia|].
        rewrite Nat.add_1_r, seqZ_S.
        rewrite (zip_with_app pair (seqZ 2 (Z.of_nat (length (foregroundImages MOG2 s)))) _
                              (foregroundImages MOG2 s) _)
          by (rewrite length_seqZ; lia).
        rewrite <- Hw. simpl. do 3 f_equal. lia.
      - split; [reflexivity|]. split; [reflexivity|]. split; [lia|exact Hw]. }
    destruct (IH s1) as (Hc' & Hm' & Hlen' & Hw'); [lia|exact Hlen1|exact Hw1|].
    split; [rewrite Hc', Hc1; simpl length; lia|].
    split; [rewrite Hm', Hm1; reflexivity|]. split; assumption.
Qed.
End ForegroundFrames.

(** X11.  Every frame [computeForegroundImages] returns is its input frame
    under the mask the estimator gave for that frame: the size of the
    frame, the pixels of the frame where the mask is not zero, zero
    elsewhere.  Nothing of an earlier frame is left in it.  The masks
    are those of the estimator fed with all frames from the first on. *)
Theorem computeForegroundImages_masked
        (MOG2 : Type) (create : MOG2) (apply_frame : MOG2 -> Mat uchar -> MOG2 * Mat uchar)
        (images : list (Mat uchar)) :
  computeForegroundImages MOG2 create apply_frame images
  = tail (zip_with masked images (foreground_masks MOG2 apply_frame create images)).
Proof.
  unfold computeForegroundImages.
  rewrite (fg_loop_outputs MOG2 apply_frame images (fg_init MOG2 create)) by (simpl; lia).
  simpl. rewrite frame_outputs_masked.
  destruct (zip_with masked images _); reflexivity.
Qed.

(** X12.  [computeForegroundImage] returns the last frame under its mask, and
    the matrix without elements when there is no frame. *)
Theorem computeForegroundImage_last
        (MOG2 : Type) (create : MOG2) (apply_frame : MOG2 -> Mat uchar -> MOG2 * Mat uchar)
        (images : list (Mat uchar)) :
  computeForegroundImage MOG2 create apply_frame images
  = default empty_image
            (last (zip_with masked images (foreground_masks MOG2 apply_frame create images)))
  /\ computeForegroundImage MOG2 create apply_frame [] = empty_image.
Proof.
  split; [|reflexivity].
  unfold computeForegroundImage. rewrite fg_single_loop, frame_outputs_masked. reflexivity.
Qed.

(** X13.  With two frames or more, the image [computeForegroundImage]
    returns is the last of the images [computeForegroundImages]
    returns. *)
Theorem computeForegroundImage_is_last_of_sequence
        (MOG2 : Type) (create : MOG2) (apply_frame : MOG2 -> Mat uchar -> MOG2 * Mat uchar)
        (images : list (Mat uchar)) :
  (2 <= length images)%nat ->
  last (computeForegroundImages MOG2 create apply_frame images)
  = Some (computeForegroundImage MOG2 create apply_frame images).
Proof.
  intros Hlen.
  unfold computeForegroundImages, computeForegroundImage.
  rewrite (fg_loop_outputs MOG2 apply_frame images (fg_init MOG2 create)) by (simpl; lia).
  rewrite fg_single_loop.
  cbn [fg_init counter foregroundImages pMOG2 foregroundImage app].
  change (Z.to_nat (1 - 0)) with 1%nat.
  pose proof (frame_outputs_length MOG2 apply_frame create empty_image images) as Hl.
  destruct (frame_outputs MOG2 apply_frame create empty_image images) as [|a [|b l]];
    simpl in Hl; try lia.
  change (drop 1 (a :: b :: l)) with (b :: l).
  rewrite (last_cons_cons a b l).
  destruct (last (b :: l)) eqn:E; [reflexivity|]. apply last_None in E. discriminate E.
Qed.

Lemma computeForegroundImage_is_last_of_sequence_witness :
  last (computeForegroundImages Z 0 counting_apply three_frames)
  = Some (computeForegroundImage Z 0 counting_apply three_frames).
Proof.
  apply (computeForegroundImage_is_last_of_sequence Z 0 counting_apply three_frames).
  simpl. lia.
Defined.

(** X14.  With a single frame [computeForegroundImages] returns nothing,
    where [computeForegroundImage] returns that frame under its mask. *)
Theorem computeForegroundImages_single_frame
        (MOG2 : Type) (create : MOG2) (apply_frame : MOG2 -> Mat uchar -> MOG2 * Mat uchar)
        (image : Mat uchar) :
  computeForegroundImages MOG2 create apply_frame [image] = []
  /\ computeForegroundImage MOG2 create apply_frame [image]
     = masked image (snd (apply_frame create image)).
Proof.
  split.
  - unfold computeForegroundImages. simpl. unfold fg_body. simpl.
    destruct (fg_frame MOG2 apply_frame create empty_image image). reflexivity.
  - unfold computeForegroundImage. simpl. rewrite fg_frame_masked. reflexivity.
Qed.

(** X15.  After the loop of [computeForegroundImages] over N frames the
    counter is N, the estimator has seen all N frames in order, the
    first included, and [imwrite] has been called once for each
    returned frame, in order, with the indices 2, 3, ..., N. *)
Theorem computeForegroundImages_final_state
        (MOG2 : Type) (create : MOG2) (apply_frame : MOG2 -> Mat uchar -> MOG2 * Mat uchar)
        (images : list (Mat uchar)) :
  let s := foldl (fg_body MOG2 apply_frame) (fg_init MOG2 create) images in
  counter MOG2 s = Z.of_nat (length images)
  /\ pMOG2 MOG2 s = estimator_after MOG2 apply_frame create images
  /\ written MOG2 s
     = zip (seqZ 2 (Z.of_nat (length images) - 1))
           (computeForegroundImages MOG2 create apply_frame images).
Proof.
  intros s.
  destruct (fg_loop_state MOG2 apply_frame images (fg_init MOG2 create))
    as (Hc & Hm & Hlen & Hw); [simpl; lia|simpl; lia|reflexivity|].
  fold s in Hc, Hm, Hlen, Hw. simpl in Hc.
  split; [exact Hc|]. split; [exact Hm|].
  rewrite Hw. unfold computeForegroundImages. fold s.
  destruct (decide (length images = 0)%nat) as [E|E].
  - destruct images; [reflexivity|discriminate E].
  - do 2 f_equal. lia.
Qed.

(** ** findLargestHorizontalLines and findLargestVerticalLines *)

(** X16.  Applying [findLargestVerticalLines] to its own result gives that
    result again when the length [height / 2] of its element is odd. *)
Theorem findLargestVerticalLines_idempotent (image : Mat uchar) :
  wf image -> Z.odd (rows image / 2) = true ->
  exists once,
    findLargestVerticalLines image = Some once
    /\ findLargestVerticalLines once = Some once.
Proof.
  intros (Hr & _ & _) Hodd.
  assert (rows image ÷ 2 = rows image / 2) as Hq by (apply Z.quot_div_nonneg; lia).
  assert (0 < rows image / 2) as Hpos.
  { assert (0 <= rows image / 2) by (apply Z.div_pos; lia).
    destruct (decide (rows image / 2 = 0)) as [E|]; [rewrite E in Hodd; discriminate Hodd|lia]. }
  exists (morph_open image 1 (rows image / 2)).
  unfold findLargestVerticalLines.
  change (rows (morph_open image 1 (rows image / 2))) with (rows image).
  rewrite Hq.
  destruct (Z.leb_spec (rows image / 2) 0); [lia|].
  split; [reflexivity|].
  f_equal. apply morph_open_idempotent; [reflexivity|exact Hodd].
Qed.

Lemma findLargestVerticalLines_idempotent_witness :
  exists once,
    findLargestVerticalLines (mkMatRaw 6 1 [x00; xff; xff; xff; x07; x00]) = Some once
    /\ findLargestVerticalLines once = Some once.
Proof.
  apply (findLargestVerticalLines_idempotent (mkMatRaw 6 1 [x00; xff; xff; xff; x07; x00])).
  - unfold wf. simpl. lia.
  - reflexivity.
Defined.

(** An opening with an element of odd width and height has the size of
    the image and brightens no pixel. *)
Lemma morph_open_below (image : Mat uchar) (kw kh x y : Z) (v : uchar) :
  Z.odd kw = true -> Z.odd kh = true ->
  at_ image x y = Some v ->
  exists o, at_ (morph_open image kw kh) x y = Some o /\ zv o <= zv v.
Proof.
  intros Hw Hh Hv.
  pose proof (at_Some_in_range _ _ _ _ Hv) as [Hx Hy].
  unfold morph_open. eexists. split; [apply at_dilate; assumption|].
  rewrite zv_u8 by apply greatest_under_element_range.
  apply dilate_erode_below; assumption.
Qed.

(** X17.  When the length [width / 2] of the element is odd,
    [findLargestHorizontalLines] returns an image of the same size in
    which no pixel is brighter than in the input. *)
Theorem findLargestHorizontalLines_below_image (image : Mat uchar) :
  wf image -> Z.odd (cols image / 2) = true ->
  exists lines,
    findLargestHorizontalLines image = Some lines
    /\ rows lines = rows image /\ cols lines = cols image
    /\ forall x y v, at_ image x y = Some v ->
         exists o, at_ lines x y = Some o /\ zv o <= zv v.
Proof.
  intros (_ & Hc & _) Hodd.
  assert (cols image ÷ 2 = cols image / 2) as Hq by (apply Z.quot_div_nonneg; lia).
  assert (0 < cols image / 2) as Hpos.
  { assert (0 <= cols image / 2) by (apply Z.div_pos; lia).
    destruct (decide (cols image / 2 = 0)) as [E|]; [rewrite E in Hodd; discriminate Hodd|lia]. }
  exists (morph_open image (cols image / 2) 1).
  unfold findLargestHorizontalLines. rewrite Hq.
  destruct (Z.leb_spec (cols image / 2) 0); [lia|].
  split; [reflexivity|]. split; [reflexivity|]. split; [reflexivity|].
  intros x y v Hv. apply morph_open_below; [exact Hodd|reflexivity|exact Hv].
Qed.

Lemma findLargestHorizontalLines_below_image_witness :
  exists lines,
    findLargestHorizontalLines (mkMatRaw 1 6 [x00; xff; xff; xff; x07; x00]) = Some lines
    /\ rows lines = rows (mkMatRaw 1 6 [x00; xff; xff; xff; x07; x00])
    /\ cols lines = cols (mkMatRaw 1 6 [x00; xff; xff; xff; x07; x00])
    /\ forall x y v, at_ (mkMatRaw 1 6 [x00; xff; xff; xff; x07; x00]) x y = Some v ->
         exists o, at_ lines x y = Some o /\ zv o <= zv v.
Proof.
  apply (findLargestHorizontalLines_below_image (mkMatRaw 1 6 [x00; xff; xff; xff; x07; x00])).
  - unfold wf. simpl. lia.
  - reflexivity.
Defined.

(** X18.  When the length [height / 2] of the element is odd,
    [findLargestVerticalLines] returns an image of the same size in
    which no pixel is brighter than in the input. *)
Theorem findLargestVerticalLines_below_image (image : Mat uchar) :
  wf image -> Z.odd (rows image / 2) = true ->
  exists lines,
    findLargestVerticalLines image = Some lines
    /\ rows lines = rows image /\ cols lines = cols image
    /\ forall x y v, at_ image x y = Some v ->
         exists o, at_ lines x y = Some o /\ zv o <= zv v.
Proof.
  intros (Hr & _ & _) Hodd.
  assert (rows image ÷ 2 = rows image / 2) as Hq by (apply Z.quot_div_nonneg; lia).
  assert (0 < rows image / 2) as Hpos.
  { assert (0 <= rows image / 2) by (apply Z.div_pos; lia).
    destruct (decide (rows image / 2 = 0)) as [E|]; [rewrite E in Hodd; discriminate Hodd|lia]. }
  exists (morph_open image 1 (rows image / 2)).
  unfold findLargestVerticalLines. rewrite Hq.
  destruct (Z.leb_spec (rows image / 2) 0); [lia|].
  split; [reflexivity|]. split; [reflexivity|]. split; [reflexivity|].
  intros x y v Hv. apply morph_open_below; [reflexivity|exact Hodd|exact Hv].
Qed.

Lemma findLargestVerticalLines_below_image_witness :
  exists lines,
    findLargestVerticalLines (mkMatRaw 6 1 [x00; xff; xff; xff; x07; x00]) = Some lines
    /\ rows lines = rows (mkMatRaw 6 1 [x00; xff; xff; xff; x07; x00])
    /\ cols lines = cols (mkMatRaw 6 1 [x00; xff; xff; xff; x07; x00])
    /\ forall x y v, at_ (mkMatRaw 6 1 [x00; xff; xff; xff; x07; x00]) x y = Some v ->
         exists o, at_ lines x y = Some o /\ zv o <= zv v.
Proof.
  apply (findLargestVerticalLines_below_image (mkMatRaw 6 1 [x00; xff; xff; xff; x07; x00])).
  - unfold wf. simpl. lia.
  - reflexivity.
Defined.

Lemma nonzero_zv (b : uchar) : nonzero b = true <-> 0 < zv b.
Proof.
  rewrite nonzero_true. pose proof (zv_range b). split.
  - intros Hne. destruct (decide (zv b = 0)) as [E|]; [|lia].
    exfalso. apply Hne. apply zv_inj. rewrite E. reflexivity.
  - intros Hpos ->. vm_compute in Hpos. discriminate Hpos.
Qed.

Lemma greatest_pos (l : list Z) : 0 < greatest l <-> exists v, v ∈ l /\ 0 < v.
Proof.
  split.
  - unfold greatest. induction l as [|a l IH]; simpl; [lia|].
    intros H. destruct (Z.lt_ge_cases 0 a) as [Ha|Ha].
    + exists a. split; [left|exact Ha].
    + destruct IH as (v & Hv & Hpos); [lia|]. exists v. split; [right; exact Hv|exact Hpos].
  - intros (v & Hv & Hpos). pose proof (greatest_ge l) as [_ H]. specialize (H v Hv). lia.
Qed.

Lemma least_pos (l : list Z) : 0 < least l <-> forall v, v ∈ l -> 0 < v.
Proof.
  split.
  - intros H v Hv. pose proof (least_le l) as [_ Hl]. specialize (Hl v Hv). lia.
  - intros H. assert (1 <= least l); [|lia].
    apply least_ge; [lia|]. intros v Hv. specialize (H v Hv). lia.
Qed.

Lemma elem_of_kernel_offsets (k d : Z) :
  d ∈ kernel_offsets k <-> - (k ÷ 2) <= d < - (k ÷ 2) + k.
Proof. unfold kernel_offsets. apply elem_of_seqZ. Qed.

(** The samples under a one-row element. *)
Lemma elem_of_under_row (image : Mat uchar) (k x y v : Z) :
  v ∈ under_element image k 1 x y
  <-> exists p b, - (k ÷ 2) <= p - x < - (k ÷ 2) + k
                  /\ at_ image p y = Some b /\ v = zv b.
Proof.
  rewrite elem_of_under_element. split.
  - intros (dx & dy & b & Hdx & Hdy & Hb & ->).
    apply elem_of_kernel_offsets in Hdx, Hdy.
    change (1 ÷ 2) with 0 in Hdy. assert (dy = 0) as -> by lia.
    rewrite Z.add_0_r in Hb. exists (x + dx), b. split; [lia|]. split; [exact Hb|reflexivity].
  - intros (p & b & Hp & Hb & ->).
    exists (p - x), 0, b. split; [apply elem_of_kernel_offsets; lia|].
    split; [apply elem_of_kernel_offsets; change (1 ÷ 2) with 0; lia|].
    replace (x + (p - x)) with p by lia. rewrite Z.add_0_r. split; [exact Hb|reflexivity].
Qed.

(** A pixel [x] survives a one-row opening exactly when the element
    anchored at some cell [c] that the dilation reaches from [x] covers
    only non-zero pixels of the image. *)
Lemma open_row_lit (image : Mat uchar) (k x y : Z) :
  wf image -> 0 <= x < cols image -> 0 <= y < rows image ->
  lit (morph_open image k 1) x y
  <-> exists c, 0 <= c < cols image
                /\ - (k ÷ 2) <= c - x < - (k ÷ 2) + k
                /\ forall p, 0 <= p < cols image ->
                     - (k ÷ 2) <= p - c < - (k ÷ 2) + k -> lit image p y.
Proof.
  intros Hwf Hx Hy. unfold lit at 1, morph_open.
  rewrite at_dilate by assumption.
  split.
  - intros (o & Ho & Hnz). injection Ho as <-.
    apply nonzero_zv in Hnz. rewrite zv_u8 in Hnz by apply greatest_under_element_range.
    apply greatest_pos in Hnz as (v & Hv & Hpos).
    apply elem_of_under_row in Hv as (c & b & Hc & Hb & ->).
    pose proof (at_Some_in_range _ _ _ _ Hb) as [Hcx _].
    rewrite at_erode in Hb by assumption. injection Hb as <-.
    rewrite zv_u8 in Hpos by apply least_under_element_range.
    exists c. split; [exact Hcx|]. split; [exact Hc|].
    intros p Hp Hpc. destruct (at_wf image p y Hwf Hp Hy) as [b Hb].
    exists b. split; [exact Hb|]. apply nonzero_zv.
    rewrite least_pos in Hpos. apply Hpos.
    apply elem_of_under_row. exists p, b. split; [exact Hpc|]. split; [exact Hb|reflexivity].
  - intros (c & Hc & Hcx & Hall).
    eexists. split; [reflexivity|]. apply nonzero_zv.
    rewrite zv_u8 by apply greatest_under_element_range.
    apply greatest_pos.
    exists (least (under_element image k 1 c y)). split.
    + apply elem_of_under_row. exists c, (u8 (least (under_element image k 1 c y))).
      split; [exact Hcx|]. split; [apply at_erode; assumption|].
      rewrite zv_u8 by apply least_under_element_range. reflexivity.
    + apply least_pos. intros v Hv.
      apply elem_of_under_row in Hv as (p & b & Hp & Hb & ->).
      pose proof (at_Some_in_range _ _ _ _ Hb) as [Hpx _].
      destruct (Hall p Hpx Hp) as (b' & Hb' & Hnz).
      rewrite Hb in Hb'. injection Hb' as <-. apply nonzero_zv. exact Hnz.
Qed.

(** X19.  On a well-formed image at least two pixels wide, with [k = width / 2]
    the length of the element: a pixel [(x, y)] of the result of
    [findLargestHorizontalLines] is non-zero exactly when, for some
    pixel [c] of row [y] among the [k] cells from [x - k / 2] on, all
    pixels of the image among the [k] cells of the row from [c - k / 2]
    on are non-zero.  Cells outside the image do not count. *)
Theorem findLargestHorizontalLines_survivors (image : Mat uchar) :
  wf image -> 2 <= cols image ->
  exists lines,
    findLargestHorizontalLines image = Some lines
    /\ forall x y, 0 <= x < cols image -> 0 <= y < rows image ->
         (lit lines x y
          <-> exists c, 0 <= c < cols image
                /\ x - cols image / 2 / 2 <= c < x - cols image / 2 / 2 + cols image / 2
                /\ forall p, 0 <= p < cols image ->
                     c - cols image / 2 / 2 <= p < c - cols image / 2 / 2 + cols image / 2 ->
                     lit image p y).
Proof.
  intros Hwf Hcols.
  assert (cols image ÷ 2 = cols image / 2) as Hq by (apply Z.quot_div_nonneg; lia).
  assert (1 <= cols image / 2) as Hk by (apply Z.div_le_lower_bound; lia).
  assert (cols image / 2 ÷ 2 = cols image / 2 / 2) as Hh by (apply Z.quot_div_nonneg; lia).
  exists (morph_open image (cols image / 2) 1).
  unfold findLargestHorizontalLines. rewrite Hq.
  destruct (Z.leb_spec (cols image / 2) 0); [lia|].
  split; [reflexivity|].
  intros x y Hx Hy. rewrite open_row_lit by assumption. rewrite Hh.
  split; intros (c & Hc & Hcx & Hall); exists c.
  - split; [exact Hc|]. split; [lia|].
    intros p Hp Hpc. apply Hall; lia.
  - split; [exact Hc|]. split; [lia|].
    intros p Hp Hpc. apply Hall; lia.
Qed.

Lemma findLargestHorizontalLines_survivors_witness :
  exists lines,
    findLargestHorizontalLines half_lit_row = Some lines
    /\ forall x y, 0 <= x < cols half_lit_row -> 0 <= y < rows half_lit_row ->
         (lit lines x y
          <-> exists c, 0 <= c < cols half_lit_row
                /\ x - cols half_lit_row / 2 / 2 <= c
                   < x - cols half_lit_row / 2 / 2 + cols half_lit_row / 2
                /\ forall p, 0 <= p < cols half_lit_row ->
                     c - cols half_lit_row / 2 / 2 <= p
                     < c - cols half_lit_row / 2 / 2 + cols half_lit_row / 2 ->
                     lit half_lit_row p y).
Proof.
  apply (findLargestHorizontalLines_survivors half_lit_row).
  - unfold wf. simpl. lia.
  - simpl. lia.
Defined.

Lemma at_transpose (image : Mat uchar) (a b : Z) :
  wf image -> at_ (transpose image) a b = at_ image b a.
Proof.
  intros Hwf. unfold transpose.
  destruct (decide (0 <= a < rows image /\ 0 <= b < cols image)) as [[Ha Hb]|Hout].
  - rewrite at_mkMat by assumption. unfold pixel.
    destruct (at_wf image b a Hwf Hb Ha) as [v ->]. reflexivity.
  - rewrite at_mkMat_out by assumption. unfold at_.
    destruct (in_range image b a) eqn:E; [|reflexivity].
    apply in_range_true in E. tauto.
Qed.

Lemma wf_transpose (image : Mat uchar) : wf image -> wf (transpose image).
Proof. intros (Hr & Hc & _). apply wf_mkMat; assumption. Qed.

Lemma under_element_transpose (image : Mat uchar) (k x y : Z) :
  wf image ->
  under_element (transpose image) 1 k x y = under_element image k 1 y x.
Proof.
  intros Hwf. unfold under_element.
  change (kernel_offsets 1) with [0].
  rewrite (bind_singleton _ 0).
  apply list_bind_ext; [|reflexivity].
  intros d. rewrite (bind_singleton _ 0), at_transpose by exact Hwf. reflexivity.
Qed.

Lemma erode_transpose (image : Mat uchar) (k : Z) :
  wf image -> erode (transpose image) 1 k = transpose (erode image k 1).
Proof.
  intros Hwf.
  change (mkMat (cols image) (rows image)
            (fun x y => u8 (least (under_element (transpose image) 1 k x y)))
          = mkMat (cols image) (rows image) (fun x y => pixel (erode image k 1) y x)).
  apply mkMat_ext. intros x y Hx Hy.
  rewrite under_element_transpose by exact Hwf.
  unfold erode. rewrite pixel_mkMat by assumption. reflexivity.
Qed.

Lemma dilate_transpose (image : Mat uchar) (k : Z) :
  wf image -> dilate (transpose image) 1 k = transpose (dilate image k 1).
Proof.
  intros Hwf.
  change (mkMat (cols image) (rows image)
            (fun x y => u8 (greatest (under_element (transpose image) 1 k x y)))
          = mkMat (cols image) (rows image) (fun x y => pixel (dilate image k 1) y x)).
  apply mkMat_ext. intros x y Hx Hy.
  rewrite under_element_transpose by exact Hwf.
  unfold dilate. rewrite pixel_mkMat by assumption. reflexivity.
Qed.

(** X20.  The two extractions are mirror images of each other: the vertical
    lines of the transposed image are the transposed horizontal lines
    of the image, and the one fails exactly when the other does. *)
Theorem findLargestVerticalLines_transpose (image : Mat uchar) :
  wf image ->
  findLargestVerticalLines (transpose image)
  = transpose <$> findLargestHorizontalLines image.
Proof.
  intros Hwf. unfold findLargestVerticalLines, findLargestHorizontalLines.
  change (rows (transpose image)) with (cols image).
  destruct (cols image ÷ 2 <=? 0); [reflexivity|].
  simpl. f_equal. unfold morph_open.
  rewrite erode_transpose by exact Hwf.
  apply dilate_transpose.
  destruct Hwf as (Hr & Hc & _). apply wf_mkMat; assumption.
Qed.

Lemma findLargestVerticalLines_transpose_witness :
  findLargestVerticalLines (transpose half_lit_row)
  = transpose <$> findLargestHorizontalLines half_lit_row.
Proof.
  apply (findLargestVerticalLines_transpose half_lit_row).
  unfold wf. simpl. lia.
Defined.

(** ** computeGradientImage *)

(** X21.  The result of [computeGradientImage] has the size of the
    image, and each of its pixels is the mean, rounded half to even, of
    the two 3x3 Sobel responses after each has been clamped to the range
    of a byte: a negative response counts as zero. *)
Theorem computeGradientImage_clamped_mean (image : Mat uchar) :
  rows (computeGradientImage image) = rows image
  /\ cols (computeGradientImage image) = cols image
  /\ forall x y, 0 <= x < cols image -> 0 <= y < rows image ->
       at_ (computeGradientImage image) x y
       = Some (u8 (round_half (Z.max 0 (Z.min 255 (sobel_dx image x y))
                               + Z.max 0 (Z.min 255 (sobel_dy image x y))))).
Proof.
  split; [reflexivity|]. split; [reflexivity|].
  intros x y Hx Hy. rewrite computeGradientImage_pixel by assumption.
  assert (forall z, zv (u8 z) = Z.max 0 (Z.min 255 z)) as Hclamp.
  { intros z. destruct (Z.lt_ge_cases z 0) as [Hneg|Hpos].
    - unfold u8. replace (z <? 0) with true by (symmetry; apply Z.ltb_lt; lia).
      change (zv x00) with 0. lia.
    - destruct (Z.lt_ge_cases 255 z) as [Hbig|Hsmall].
      + unfold u8. replace (z <? 0) with false by (symmetry; apply Z.ltb_ge; lia).
        replace (255 <? z) with true by (symmetry; apply Z.ltb_lt; lia).
        change (zv xff) with 255. lia.
      + rewrite zv_u8 by lia. lia. }
  rewrite !Hclamp. reflexivity.
Qed.

Lemma borderInterpolate_range (p len : Z) :
  0 < len -> -1 <= p <= len -> 0 <= borderInterpolate p len < len.
Proof.
  intros Hlen Hp. unfold borderInterpolate.
  destruct (Z.eqb_spec len 1); [lia|].
  destruct (Z.ltb_spec p 0); [lia|].
  destruct (Z.leb_spec len p); lia.
Qed.

(** In an image whose pixels all have the value [v], every sample taken
    for a 3x3 kernel, border extension included, is [v]. *)
Lemma sample_constant (image : Mat uchar) (v : uchar) (x y : Z) :
  wf image ->
  (forall a b w, at_ image a b = Some w -> w = v) ->
  -1 <= x <= cols image -> -1 <= y <= rows image ->
  0 < cols image -> 0 < rows image ->
  sample image x y = zv v.
Proof.
  intros Hwf Hall Hx Hy Hc Hr. unfold sample, pixel.
  destruct (at_wf image (borderInterpolate x (cols image)) (borderInterpolate y (rows image)) Hwf)
    as [w Hw]; try (apply borderInterpolate_range; lia).
  rewrite Hw. simpl. rewrite (Hall _ _ _ Hw). reflexivity.
Qed.

(** X22.  The gradient of a well-formed image of one single value is zero at
    every pixel, the border pixels included. *)
Theorem computeGradientImage_constant (image : Mat uchar) (v : uchar) :
  wf image ->
  (forall a b w, at_ image a b = Some w -> w = v) ->
  forall x y, 0 <= x < cols image -> 0 <= y < rows image ->
    at_ (computeGradientImage image) x y = Some x00.
Proof.
  intros Hwf Hall x y Hx Hy.
  rewrite computeGradientImage_pixel by assumption.
  unfold sobel_dx, sobel_dy.
  rewrite !(sample_constant image v) by (assumption || lia).
  replace (zv v - zv v + 2 * (zv v - zv v) + (zv v - zv v)) with 0 by lia.
  reflexivity.
Qed.

Lemma computeGradientImage_constant_witness :
  at_ (computeGradientImage (mkMat 3 4 (fun _ _ => x07))) 0 2 = Some x00.
Proof.
  apply (computeGradientImage_constant (mkMat 3 4 (fun _ _ => x07)) x07).
  - apply wf_mkMat; lia.
  - intros a b w Hw.
    pose proof (at_Some_in_range _ _ _ _ Hw) as [Ha Hb]. simpl in Ha, Hb.
    rewrite at_mkMat in Hw by assumption. congruence.
  - simpl. lia.
  - simpl. lia.
Defined.

(** X23.  A pixel where neither response is positive, such as any pixel of an
    edge that falls from left to right or from top to bottom, comes out
    as zero: the sign of the responses is lost before the absolute value
    is taken. *)
Theorem computeGradientImage_falling_is_zero (image : Mat uchar) (x y : Z) :
  0 <= x < cols image -> 0 <= y < rows image ->
  sobel_dx image x y <= 0 -> sobel_dy image x y <= 0 ->
  at_ (computeGradientImage image) x y = Some x00.
Proof.
  intros Hx Hy Hdx Hdy.
  rewrite computeGradientImage_pixel by assumption.
  assert (forall z, z <= 0 -> zv (u8 z) = 0) as Hclamp.
  { intros z Hz. unfold u8. destruct (Z.ltb_spec z 0); [reflexivity|].
    replace z with 0 by lia. reflexivity. }
  rewrite !Hclamp by assumption. reflexivity.
Qed.

Lemma computeGradientImage_falling_is_zero_witness :
  at_ (computeGradientImage falling_edge) 1 1 = Some x00.
Proof.
  apply (computeGradientImage_falling_is_zero falling_edge 1 1).
  - simpl. lia.
  - simpl. lia.
  - vm_compute. discriminate.
  - vm_compute. discriminate.
Defined.

(** ** generateEnhancedCenterMask *)



(** X25.  The mask is symmetric under both mirrorings of the frame. *)
Theorem generateEnhancedCenterMask_symmetric (pad width height : Z) :
  1 <= pad -> 0 < width -> 0 < height ->
  exists mask,
    generateEnhancedCenterMask pad width height = Some mask
    /\ forall x y, 0 <= x < width -> 0 <= y < height ->
         mask_at mask (width - 1 - x) y = mask_at mask x y
         /\ mask_at mask x (height - 1 - y) = mask_at mask x y.
Proof.
  intros Hpad Hw Hh.
  destruct (generateEnhancedCenterMask_entries pad width height Hpad Hw Hh)
    as (mask & Hmask & _ & _ & Hval).
  exists mask. split; [exact Hmask|].
  intros x y Hx Hy. rewrite !Hval by lia.
  split; do 2 f_equal; unfold depth; lia.
Qed.

Lemma generateEnhancedCenterMask_symmetric_witness :
  exists mask,
    generateEnhancedCenterMask 1 4 3 = Some mask
    /\ forall x y, 0 <= x < 4 -> 0 <= y < 3 ->
         mask_at mask (4 - 1 - x) y = mask_at mask x y
         /\ mask_at mask x (3 - 1 - y) = mask_at mask x y.
Proof.
  apply (generateEnhancedCenterMask_symmetric 1 4 3); lia.
Defined.


